(** * A shallow embedding of the kernel heap of [project3/src/kheap.c]

    The allocator manages a growable region of a flat 32-bit address space.
    Every block starts with a [struct header] and ends with a
    [struct footer]; free blocks are referenced from a size-ordered array,
    the free list.

    Modelling choices.
    - [size_t] and pointers are 32-bit words (the source masks addresses
      with [0xFFFFF000]); every arithmetic result is reduced with [wrap].
    - Memory is a total map from byte addresses to bytes; multi-byte fields
      are little-endian.  Headers and footers live in that memory, so
      accesses through stale or misplaced pointers alias as they do in C.
    - [struct heap] (free list, start, end and max address) is a record
      that is threaded through the operations next to the memory, and the
      entries of the free list are a list in that record: the layout that
      the comment of [heap_create] gives, heap structure, then free list,
      then data.  In the source both live in the managed memory, and the
      address that [heap_create] gives [sorted_array_place] is
      [start + sizeof(struct sorted_array)], inside the [struct heap] that
      it puts at [start].  Where the slots of the array fall on the fields
      of [struct heap] is decided by [kheap.h], [sorted_array.h] and
      [sorted_array.c], which are not part of the sources.  The record
      leaves that overlay out: the byte memory holds the blocks, what the
      development proves about memory is about the stores of [kheap.c] to
      headers and footers, and a statement that [start_address],
      [end_address] or [max_address] survive an update of the free list
      would be a statement about the record only.
    - Loops that the source bounds by the free-list size are structural
      recursions on the list; the [while] loop of the growth path and the
      self call of [kalloc_heap] consume fuel.
    - A call has one of three outcomes: it returns, it stops on a violated
      contract of the free-list array, or it is still running when the
      fuel is spent. *)

From Stdlib Require Import ZArith List Lia Bool.
Import ListNotations.
Local Open Scope Z_scope.

(** ** Machine words *)

Definition wrap (x : Z) : Z := x mod 2 ^ 32.

(** Modelled from the spec: [PAGE_SIZE] and [PAGE_MASK] come from
    [common.h], which is not part of the sources; the page size is the
    [0x1000] and the mask the [0xFFFFF000] that [kheap.c] writes out
    next to them. *)
Definition PAGE_SIZE : Z := 0x1000.
Definition PAGE_MASK : Z := 0xFFFFF000.

(** [sizeof(f)] for a pointer [f]. *)
Definition sizeof_pointer : Z := 4.

(** ** Results of operations *)

Inductive outcome (A : Type) : Type :=
| Ret (a : A)      (* the call returns *)
| Fatal            (* a free-list contract is violated *)
| OutOfFuel.       (* the call is still running when the fuel is spent *)
Arguments Ret {A} a.
Arguments Fatal {A}.
Arguments OutOfFuel {A}.

Definition bind {A B : Type} (c : outcome A) (k : A -> outcome B) : outcome B :=
  match c with
  | Ret a => k a
  | Fatal => Fatal
  | OutOfFuel => OutOfFuel
  end.

Notation "x <- c ;; k" := (bind c (fun x => k))
  (at level 61, c at next level, right associativity).

(** ** Byte-addressed memory *)

Definition mem : Type := Z -> Z.

Definition load8 (m : mem) (a : Z) : Z := m (wrap a) mod 256.

Definition store8 (m : mem) (a v : Z) : mem :=
  fun x => if x =? wrap a then v mod 256 else m x.

Definition load32 (m : mem) (a : Z) : Z :=
  load8 m a + 2 ^ 8 * load8 m (a + 1) + 2 ^ 16 * load8 m (a + 2)
  + 2 ^ 24 * load8 m (a + 3).

Definition store32 (m : mem) (a v : Z) : mem :=
  store8 (store8 (store8 (store8 m a v) (a + 1) (v / 2 ^ 8))
                 (a + 2) (v / 2 ^ 16)) (a + 3) (v / 2 ^ 24).

(** ** What [kheap.h] and [sorted_array.h] fix

    Neither header is part of the sources.  The sizes of the structures,
    the offsets of their fields and the two constants are parameters of
    the development. *)

Class abi : Type := {
  sizeof_header : Z;        (* sizeof(struct header) *)
  sizeof_footer : Z;        (* sizeof(struct footer) *)
  off_magic : Z;            (* offsetof(struct header, magic) *)
  off_allocated : Z;        (* offsetof(struct header, allocated) *)
  off_size : Z;             (* offsetof(struct header, size) *)
  foff_magic : Z;           (* offsetof(struct footer, magic) *)
  foff_header : Z;          (* offsetof(struct footer, header) *)
  HEAP_MAGIC : Z;
  HEAP_FREE_LIST_SIZE : Z;
  sizeof_sorted_array : Z   (* sizeof(struct sorted_array) *)
}.

(** The layout of a 32-bit x86 build: a header of a 32-bit magic, a one
    byte flag and a 32-bit size; a footer of a magic and a pointer. *)
#[export] Instance ia32 : abi := {|
  sizeof_header := 12;
  sizeof_footer := 8;
  off_magic := 0;
  off_allocated := 4;
  off_size := 8;
  foff_magic := 0;
  foff_header := 4;
  HEAP_MAGIC := 0x123890AB;
  HEAP_FREE_LIST_SIZE := 0x20000;
  sizeof_sorted_array := 16
|}.

(** The fields of a header lie inside it and do not overlap, likewise
    for a footer; the magic is a 32-bit value. *)
Record abi_ok (A : abi) : Prop := {
  magic_fits : 0 <= off_magic /\ off_magic + 4 <= sizeof_header;
  allocated_fits : 0 <= off_allocated /\ off_allocated + 1 <= sizeof_header;
  size_fits : 0 <= off_size /\ off_size + 4 <= sizeof_header;
  magic_allocated :
    off_magic + 4 <= off_allocated \/ off_allocated + 1 <= off_magic;
  magic_size : off_magic + 4 <= off_size \/ off_size + 4 <= off_magic;
  allocated_size :
    off_allocated + 1 <= off_size \/ off_size + 4 <= off_allocated;
  fmagic_fits : 0 <= foff_magic /\ foff_magic + 4 <= sizeof_footer;
  fheader_fits : 0 <= foff_header /\ foff_header + 4 <= sizeof_footer;
  fmagic_fheader :
    foff_magic + 4 <= foff_header \/ foff_header + 4 <= foff_magic;
  metadata_small : sizeof_header + sizeof_footer <= 0x400;
  magic_word : 0 <= HEAP_MAGIC < 2 ^ 32
}.

Section Heap.
Context {A : abi}.

(** *** Field accessors *)

Definition hdr_magic (m : mem) (h : Z) : Z := load32 m (h + off_magic).
Definition hdr_size (m : mem) (h : Z) : Z := load32 m (h + off_size).
Definition hdr_allocated (m : mem) (h : Z) : Z := load8 m (h + off_allocated).
Definition ftr_magic (m : mem) (f : Z) : Z := load32 m (f + foff_magic).
Definition ftr_header (m : mem) (f : Z) : Z := load32 m (f + foff_header).

Definition set_hdr_magic (m : mem) (h v : Z) : mem := store32 m (h + off_magic) v.
Definition set_hdr_size (m : mem) (h v : Z) : mem := store32 m (h + off_size) v.
Definition set_hdr_allocated (m : mem) (h v : Z) : mem :=
  store8 m (h + off_allocated) v.
Definition set_ftr_magic (m : mem) (f v : Z) : mem := store32 m (f + foff_magic) v.
Definition set_ftr_header (m : mem) (f v : Z) : mem :=
  store32 m (f + foff_header) v.

(** ** The sorted array holding the free list *)

Record sorted_array : Type := {
  storage : list Z;     (* the entries, addresses of headers *)
  max_size : Z          (* the fixed capacity *)
}.

Definition sa_size (a : sorted_array) : Z := Z.of_nat (length (storage a)).

(** [header_less_than a b]: a's size is less than b's size. *)
Definition header_less_than (m : mem) (a b : Z) : bool :=
  hdr_size m a <? hdr_size m b.

(** The four operations on the array are defined in [sorted_array.c],
    which is not part of the sources; they follow the description of the
    free list in the specification. *)

(** Modelled from the spec: [sorted_array_place] is missing; the array
    starts empty with a capacity fixed at creation. *)
Definition sorted_array_place (cap : Z) : sorted_array :=
  {| storage := []; max_size := cap |}.

(** Modelled from the spec: the shifting insert of [sorted_array_insert]
    is missing; the item goes before the first entry that does not
    precede it, which keeps the entries ascending. *)
Fixpoint insert_sorted (lt : Z -> Z -> bool) (item : Z) (l : list Z) : list Z :=
  match l with
  | [] => [item]
  | x :: r => if lt x item then x :: insert_sorted lt item r else item :: l
  end.

(** Modelled from the spec: [sorted_array_insert] is missing; it
    inserts in order, and inserting beyond the capacity is a fatal
    error. *)
Definition sorted_array_insert (m : mem) (item : Z) (a : sorted_array)
  : outcome sorted_array :=
  if max_size a <=? sa_size a then Fatal
  else Ret {| storage := insert_sorted (header_less_than m) item (storage a);
              max_size := max_size a |}.

(** Modelled from the spec: the shifting removal of
    [sorted_array_remove] is missing; the other entries keep their
    order. *)
Fixpoint remove_nth (n : nat) (l : list Z) : list Z :=
  match l, n with
  | [], _ => []
  | _ :: r, O => r
  | x :: r, S k => x :: remove_nth k r
  end.

(** Modelled from the spec: [sorted_array_remove] is missing; it removes
    the entry at a position of the array. *)
Definition sorted_array_remove (i : Z) (a : sorted_array) : outcome sorted_array :=
  if (0 <=? i) && (i <? sa_size a)
  then Ret {| storage := remove_nth (Z.to_nat i) (storage a);
              max_size := max_size a |}
  else Fatal.

(** Modelled from the spec: [sorted_array_lookup] is missing; it returns
    the entry at a position, and a position outside the array is a
    contract violation. *)
Definition sorted_array_lookup (i : Z) (a : sorted_array) : outcome Z :=
  if (0 <=? i) && (i <? sa_size a)
  then Ret (nth (Z.to_nat i) (storage a) 0)
  else Fatal.

(** ** The heap *)

Record heap : Type := {
  free_list : sorted_array;
  start_address : Z;
  end_address : Z;
  max_address : Z
}.

Definition set_end_address (h : heap) (e : Z) : heap :=
  {| free_list := free_list h; start_address := start_address h;
     end_address := e; max_address := max_address h |}.

Definition set_free_list (h : heap) (l : sorted_array) : heap :=
  {| free_list := l; start_address := start_address h;
     end_address := end_address h; max_address := max_address h |}.

(** The heap record and the byte memory side by side.  The stores of
    [heap_create] and [heap_resize] to the fields of [struct heap], and the
    stores of the array operations to their slots, change [st_heap] and not
    [st_mem]. *)
Record state : Type := {
  st_heap : heap;
  st_mem : mem
}.

(** [align p]: the page-aligned address at or before [p]. *)
Definition align (p : Z) : Z := Z.land p PAGE_MASK.

(** [heap_resize new_size heap]: the return code and the heap after the
    call.  The test of the expanding branch is the source's
    [new_size & 0xFFFFF000 != 0], in which [!=] binds first. *)
Definition heap_resize (new_size : Z) (h : heap) : Z * heap :=
  let new_size := wrap new_size in
  let new_size :=
    if align new_size =? new_size then new_size
    else wrap (align new_size + PAGE_SIZE) in
  let current := wrap (end_address h - start_address h) in
  if new_size <? current then
    let new_size :=
      if Z.land new_size 0x1000 =? 0 then new_size
      else wrap (Z.land new_size 0x1000 + 0x1000) in
    (0, set_end_address h (wrap (start_address h + new_size)))
  else if new_size >? current then
    let new_size :=
      if Z.land new_size (if 0xFFFFF000 =? 0 then 0 else 1) =? 0 then new_size
      else wrap (Z.land new_size 0xFFFFF000 + 0x1000) in
    if wrap (start_address h + new_size) >? max_address h then (-1, h)
    else (0, set_end_address h (wrap (start_address h + new_size)))
  else
    (0, set_end_address h (wrap (start_address h + new_size))).

(** [find_smallest_hole]: the loop over the free list, from index [i]. *)
Definition hole_offset (page_align : bool) (loc : Z) : Z :=
  if page_align then PAGE_SIZE - wrap (loc + sizeof_header) mod PAGE_SIZE else 0.

Definition hole_size (m : mem) (page_align : bool) (loc : Z) : Z :=
  wrap (hdr_size m loc - hole_offset page_align loc).

Fixpoint find_from (m : mem) (size : Z) (page_align : bool) (l : list Z) (i : Z)
  : Z :=
  match l with
  | [] => -1
  | header :: rest =>
      if hole_size m page_align header >=? size then i
      else find_from m size page_align rest (i + 1)
  end.

Definition find_smallest_hole (size : Z) (page_align : bool) (st : state) : Z :=
  find_from (st_mem st) size page_align (storage (free_list (st_heap st))) 0.

(** [add_hole start end heap].  The footer pointer is
    [(struct footer * ) end - sizeof(f)]: the cast binds first, so the
    subtraction counts footers, not bytes. *)
Definition add_hole (start end_ : Z) (st : state) : outcome state :=
  let h := start in
  let m := set_hdr_magic (st_mem st) h HEAP_MAGIC in
  let m := set_hdr_size m h (wrap (end_ - start)) in
  let m := set_hdr_allocated m h 0 in
  let f := wrap (end_ - sizeof_pointer * sizeof_footer) in
  let m := set_ftr_magic m f HEAP_MAGIC in
  let m := set_ftr_header m f h in
  fl <- sorted_array_insert m h (free_list (st_heap st)) ;;
  Ret {| st_heap := set_free_list (st_heap st) fl; st_mem := m |}.

(** [heap_create start end max], over a memory that is already there.
    The source writes [struct heap] at [start] and places the array of the
    free list at [start + sizeof(struct sorted_array)]; here the result of
    these stores is the heap record, and [st_mem] receives the stores of
    [add_hole] to the first hole only. *)
Definition heap_create (start end_ max : Z) (m : mem) : outcome state :=
  let fl := sorted_array_place HEAP_FREE_LIST_SIZE in
  let start :=
    wrap (start + (sizeof_sorted_array + sizeof_pointer * HEAP_FREE_LIST_SIZE)) in
  let start :=
    if align start =? start then start else wrap (align start + PAGE_SIZE) in
  let h := {| free_list := fl; start_address := start;
              end_address := end_; max_address := max |} in
  add_hole start end_ {| st_heap := h; st_mem := m |}.

(** ** Allocation *)

(** The [while] loop of the growth path, which looks for the entry with
    the highest address.  Its body never changes [iterator_result]. *)
Fixpoint last_header_scan (fuel : nat) (fl : sorted_array)
    (iterator_result index value : Z) : outcome (Z * Z) :=
  match fuel with
  | O => OutOfFuel
  | S fuel' =>
      if iterator_result <? sa_size fl then
        tmp <- sorted_array_lookup iterator_result fl ;;
        if tmp >? value
        then last_header_scan fuel' fl iterator_result iterator_result tmp
        else last_header_scan fuel' fl iterator_result index value
      else Ret (index, value)
  end.

(** The growth path after a successful [heap_resize]: either a new hole
    over the added range or a longer last hole. *)
Definition extend_free_space (fuel : nat) (old_length old_end_address : Z)
    (h1 : heap) (m : mem) : outcome state :=
  let new_length := wrap (end_address h1 - start_address h1) in
  iv <- last_header_scan fuel (free_list h1) 0 (wrap (-1)) 0 ;;
  let index := fst iv in
  if index =? wrap (-1) then
    add_hole old_end_address
      (wrap (old_end_address + wrap (new_length - old_length) - sizeof_footer))
      {| st_heap := h1; st_mem := m |}
  else
    new_header <- sorted_array_lookup index (free_list h1) ;;
    let m := set_hdr_size m new_header
               (wrap (hdr_size m new_header + wrap (new_length - old_length))) in
    let new_footer :=
      wrap (new_header + hdr_size m new_header - sizeof_footer) in
    let m := set_ftr_magic m new_footer HEAP_MAGIC in
    let m := set_ftr_header m new_footer new_header in
    Ret {| st_heap := h1; st_mem := m |}.

(** The leading hole that page alignment splits off; the result is the
    memory, the location and the size of what is left of the hole. *)
Definition carve_aligned (m : mem) (old_hole_loc old_hole_size : Z)
  : mem * Z * Z :=
  let new_loc :=
    wrap (old_hole_loc + PAGE_SIZE - Z.land old_hole_loc 0xFFF - sizeof_header) in
  let hole_header := old_hole_loc in
  let m := set_hdr_size m hole_header
             (wrap (PAGE_SIZE - Z.land old_hole_loc 0xFFF - sizeof_header)) in
  let m := set_hdr_magic m hole_header HEAP_MAGIC in
  let m := set_hdr_allocated m hole_header 0 in
  let hole_foot := wrap (new_loc - sizeof_footer) in
  let m := set_ftr_magic m hole_foot HEAP_MAGIC in
  let m := set_ftr_header m hole_foot hole_header in
  (m, new_loc, wrap (old_hole_size - hdr_size m hole_header)).

(** The header of the allocated chunk, then its footer. *)
Definition write_chunk_header (m : mem) (chunk_header new_size : Z) : mem :=
  let m := set_hdr_magic m chunk_header HEAP_MAGIC in
  let m := set_hdr_allocated m chunk_header 1 in
  set_hdr_size m chunk_header new_size.

Definition write_chunk_footer (m : mem) (chunk_header size : Z) : mem :=
  let chunk_footer := wrap (chunk_header + sizeof_header + size) in
  let m := set_ftr_magic m chunk_footer HEAP_MAGIC in
  set_ftr_header m chunk_footer chunk_header.

Definition write_chunk (m : mem) (loc new_size size : Z) : mem :=
  write_chunk_footer (write_chunk_header m loc new_size) loc size.

(** The hole after the chunk, when something is left of the old hole. *)
Definition write_remainder (loc old_hole_size new_size size : Z) (st : state)
  : outcome state :=
  if wrap (old_hole_size - new_size) >? 0 then
    let h := st_heap st in
    let hole_header := wrap (loc + sizeof_header + size + sizeof_footer) in
    let m := set_hdr_magic (st_mem st) hole_header HEAP_MAGIC in
    let m := set_hdr_allocated m hole_header 0 in
    let m := set_hdr_size m hole_header (wrap (old_hole_size - new_size)) in
    let hole_footer :=
      wrap (hole_header + old_hole_size - new_size - sizeof_footer) in
    let m :=
      if hole_footer <? end_address h
      then set_ftr_header (set_ftr_magic m hole_footer HEAP_MAGIC)
             hole_footer hole_header
      else m in
    fl <- sorted_array_insert m hole_header (free_list h) ;;
    Ret {| st_heap := set_free_list h fl; st_mem := m |}
  else Ret st.

(** Whether the allocation splits off a leading hole:
    [page_align && old_hole_loc&0xFFFFF000]. *)
Definition takes_carve_path (page_align : bool) (old_hole_loc : Z) : bool :=
  page_align && negb (Z.land old_hole_loc 0xFFFFF000 =? 0).

(** [kalloc_heap] from the lookup of the found hole to the return. *)
Definition kalloc_place (iterator_result size new_size : Z) (page_align : bool)
    (st : state) : outcome (option Z * state) :=
  let h := st_heap st in
  let m := st_mem st in
  old_hole_header <- sorted_array_lookup iterator_result (free_list h) ;;
  let old_hole_loc := old_hole_header in
  let old_hole_size := hdr_size m old_hole_header in
  let absorb :=
    wrap (old_hole_size - new_size) <? sizeof_header + sizeof_footer in
  let size := if absorb then wrap (size + old_hole_size - new_size) else size in
  let new_size := if absorb then old_hole_size else new_size in
  st1 <-
    (if takes_carve_path page_align old_hole_loc then
       Ret (carve_aligned m old_hole_loc old_hole_size, free_list h)
     else
       fl <- sorted_array_remove iterator_result (free_list h) ;;
       Ret ((m, old_hole_loc, old_hole_size), fl)) ;;
  let '((m, old_hole_loc, old_hole_size), fl) := st1 in
  let m := write_chunk m old_hole_loc new_size size in
  st2 <- write_remainder old_hole_loc old_hole_size new_size size
           {| st_heap := set_free_list h fl; st_mem := m |} ;;
  Ret (Some (wrap (old_hole_loc + sizeof_header)), st2).

(** One activation of [kalloc_heap]; [self] is the call at the end of
    the growth path.  [None] is the [return;] without a value. *)
Definition kalloc_body (self : Z -> bool -> state -> outcome (option Z * state))
    (fuel : nat) (size : Z) (page_align : bool) (st : state)
  : outcome (option Z * state) :=
  let h := st_heap st in
  let size := wrap size in
  let new_size := wrap (size + sizeof_header + sizeof_footer) in
  let iterator_result := wrap (find_smallest_hole new_size page_align st) in
  if iterator_result =? wrap (-1) then
    let old_length := wrap (end_address h - start_address h) in
    let old_end_address := end_address h in
    let rh := heap_resize (wrap (old_length + new_size)) h in
    let resize_result := wrap (fst rh) in
    if resize_result =? wrap (-1) then Ret (None, st)
    else
      st' <- extend_free_space fuel old_length old_end_address (snd rh)
               (st_mem st) ;;
      self size page_align st'
  else kalloc_place iterator_result size new_size page_align st.

Fixpoint kalloc_heap (fuel : nat) (size : Z) (page_align : bool) (st : state)
  : outcome (option Z * state) :=
  match fuel with
  | O => OutOfFuel
  | S fuel' => kalloc_body (kalloc_heap fuel') fuel' size page_align st
  end.

(** ** Deallocation *)

(** The index of the first entry equal to [x], or the length. *)
Fixpoint index_of (x : Z) (l : list Z) (i : Z) : Z :=
  match l with
  | [] => i
  | y :: r => if y =? x then i else index_of x r (i + 1)
  end.

(** Left coalescing: the header to continue with, the memory and
    [add_to_free_list]. *)
Definition coalesce_left (m : mem) (p_header p_footer : Z) : Z * mem * bool :=
  let left_footer := wrap (p_header - sizeof_footer) in
  if (ftr_magic m left_footer =? HEAP_MAGIC)
     && (hdr_allocated m (ftr_header m left_footer) =? 0) then
    let current_size := hdr_size m p_header in
    let p_header := ftr_header m left_footer in
    let m := set_ftr_header m p_footer p_header in
    let m := set_hdr_size m p_header (wrap (hdr_size m p_header + current_size)) in
    (p_header, m, false)
  else (p_header, m, true).

(** The end-of-region contraction and the final insertion. *)
Definition contract_and_insert (p_header p_footer right_header : Z)
    (add_to_free_list : bool) (st : state) : outcome state :=
  let h := st_heap st in
  let m := st_mem st in
  st1 <-
    (if wrap (p_footer + sizeof_footer) =? end_address h then
       let length := wrap (end_address h - start_address h) in
       let rh := heap_resize (wrap (p_header - start_address h)) h in
       let new_length := wrap (fst rh) in
       let h := snd rh in
       if wrap (hdr_size m p_header - wrap (length - new_length)) >? 0 then
         let m := set_hdr_size m p_header
                    (wrap (hdr_size m p_header - wrap (length - new_length))) in
         let p_footer := wrap (p_header + hdr_size m p_header - sizeof_footer) in
         let m := set_ftr_magic m p_footer HEAP_MAGIC in
         let m := set_ftr_header m p_footer p_header in
         Ret {| st_heap := h; st_mem := m |}
       else
         let i := index_of right_header (storage (free_list h)) 0 in
         if i <? sa_size (free_list h) then
           fl <- sorted_array_remove i (free_list h) ;;
           Ret {| st_heap := set_free_list h fl; st_mem := m |}
         else Ret {| st_heap := h; st_mem := m |}
     else Ret st) ;;
  if add_to_free_list then
    fl <- sorted_array_insert (st_mem st1) p_header (free_list (st_heap st1)) ;;
    Ret {| st_heap := set_free_list (st_heap st1) fl; st_mem := st_mem st1 |}
  else Ret st1.

(** The header and the footer that [kfree_heap] derives from a pointer. *)
Definition block_header (p : Z) : Z := wrap (p - sizeof_header).
Definition block_footer (m : mem) (p_header : Z) : Z :=
  wrap (p_header + hdr_size m p_header - sizeof_footer).

Definition kfree_heap (p : Z) (st : state) : outcome state :=
  let h := st_heap st in
  let m := st_mem st in
  if p =? 0 then Ret st
  else
    let p_header := block_header p in
    let p_footer := block_footer m p_header in
    if negb (hdr_magic m p_header =? HEAP_MAGIC) then Ret st
    else if negb (ftr_magic m p_footer =? HEAP_MAGIC) then Ret st
    else
      let m := set_hdr_allocated m p_header 0 in
      let '(p_header, m, add_to_free_list) := coalesce_left m p_header p_footer in
      let right_header := wrap (p_footer + sizeof_footer) in
      if (hdr_magic m right_header =? HEAP_MAGIC)
         && (hdr_allocated m right_header =? 0) then
        let m := set_hdr_size m p_header
                   (wrap (hdr_size m p_header + hdr_size m right_header)) in
        let right_footer :=
          wrap (right_header + hdr_size m right_header - sizeof_pointer) in
        let p_header := right_footer in
        let i := index_of right_header (storage (free_list h)) 0 in
        if i >=? sa_size (free_list h) then Ret {| st_heap := h; st_mem := m |}
        else
          fl <- sorted_array_remove i (free_list h) ;;
          contract_and_insert p_header p_footer right_header add_to_free_list
            {| st_heap := set_free_list h fl; st_mem := m |}
      else
        contract_and_insert p_header p_footer right_header add_to_free_list
          {| st_heap := h; st_mem := m |}.

End Heap.

(** * Vocabulary of the statements *)

(** ** Page rounding and heap bounds *)

Definition round_up_page (n : Z) : Z :=
  PAGE_SIZE * ((n + (PAGE_SIZE - 1)) / PAGE_SIZE).

Definition round_down_page (n : Z) : Z := PAGE_SIZE * (n / PAGE_SIZE).

(** The first statement of [heap_resize]. *)
Definition page_round (new_size : Z) : Z :=
  if align new_size =? new_size then new_size
  else wrap (align new_size + PAGE_SIZE).

(** The current size of the heap, [end_address - start_address]. *)
Definition heap_length (h : heap) : Z :=
  wrap (end_address h - start_address h).

(** The three addresses of a heap are words and are ordered. *)
Record heap_wf (h : heap) : Prop := {
  wf_start : 0 <= start_address h <= end_address h;
  wf_end : end_address h <= max_address h;
  wf_max : max_address h < 2 ^ 32
}.

(** ** Free-list entries *)

(** [one_more l l']: [l'] is [l] with one entry inserted. *)
Definition one_more (l l' : list Z) : Prop :=
  exists x pre post, l = pre ++ post /\ l' = pre ++ x :: post.

Definition same_or_one_more (l l' : list Z) : Prop := l' = l \/ one_more l l'.

(** An address with one of the bits 12 to 31 set. *)
Definition above_first_page (a : Z) : Prop := Z.land a 0xFFFFF000 <> 0.

Definition holes_above_first_page (st : state) : Prop :=
  Forall above_first_page (storage (free_list (st_heap st))) /\
  above_first_page (end_address (st_heap st)).


(** ** Bytes that stay apart *)

(** [apart a n b k]: the [n] bytes at [a] and the [k] bytes at [b] are
    different bytes of the address space. *)
Definition apart (a n b k : Z) : Prop :=
  forall i j, 0 <= i < n -> 0 <= j < k -> wrap (a + i) <> wrap (b + j).

Section Vocabulary.
Context {A : abi}.



(** ** The partition of the heap into blocks *)

(** [tiles m e a]: starting at [a], headers with the magic and a positive
    size follow one another and the last block ends at [e]. *)
Inductive tiles (m : mem) (e : Z) : Z -> Prop :=
| tiles_done : tiles m e e
| tiles_block (a : Z) :
    hdr_magic m a = HEAP_MAGIC ->
    0 < hdr_size m a ->
    tiles m e (a + hdr_size m a) ->
    tiles m e a.

(** The blocks cover [start_address, end_address) without gap or
    overlap. *)
Definition blocks_partition (st : state) : Prop :=
  tiles (st_mem st) (end_address (st_heap st)) (start_address (st_heap st)).

(** ** The search as the specification words it *)

(** The padding that brings the payload of a block at [loc] to the next
    page boundary; none when it is on one. *)
Definition alignment_padding (loc : Z) : Z :=
  (PAGE_SIZE - (loc + sizeof_header) mod PAGE_SIZE) mod PAGE_SIZE.

Definition effective_size (m : mem) (page_align : bool) (loc : Z) : Z :=
  hdr_size m loc - (if page_align then alignment_padding loc else 0).

Fixpoint first_fit_from (m : mem) (size : Z) (page_align : bool) (l : list Z)
    (i : Z) : Z :=
  match l with
  | [] => -1
  | header :: rest =>
      if effective_size m page_align header >=? size then i
      else first_fit_from m size page_align rest (i + 1)
  end.

Definition first_fit (size : Z) (page_align : bool) (st : state) : Z :=
  first_fit_from (st_mem st) size page_align (storage (free_list (st_heap st))) 0.

End Vocabulary.

(** * Runs on a concrete machine

    The runs use the [ia32] layout over a memory of zero bytes. *)

Definition zero_memory : mem := fun _ => 0.

Definition sample_heap : heap :=
  {| free_list := sorted_array_place 0x20000;
     start_address := 0x181000; end_address := 0x200000;
     max_address := 0x400000 |}.

(** A heap with one hole of [0x7F000] bytes at [0x181000]. *)
Definition sample_state : state :=
  {| st_heap :=
       {| free_list := {| storage := [0x181000]; max_size := 0x20000 |};
          start_address := 0x181000; end_address := 0x200000;
          max_address := 0x400000 |};
     st_mem := @set_hdr_size ia32 zero_memory 0x181000 0x7F000 |}.

Definition state_after {X : Type} (o : outcome (X * state)) : state :=
  match o with
  | Ret (_, s) => s
  | _ => sample_state
  end.

(** [heap_create(0x100000, 0x200000, 0x400000)]. *)
Definition fresh_heap : outcome state :=
  @heap_create ia32 0x100000 0x200000 0x400000 zero_memory.

(** An allocation that takes the whole first hole, then one that has to
    grow the heap. *)
Definition growth_run : outcome (state * state * state) :=
  s1 <- fresh_heap ;;
  r2 <- @kalloc_heap ia32 1 (0x7F000 - 20) false s1 ;;
  r3 <- @kalloc_heap ia32 2 16 false (snd r2) ;;
  Ret (s1, snd r2, snd r3).

(** An allocation larger than the only hole of a fresh heap. *)
Definition oversize_run (fuel : nat) : outcome (option Z * state) :=
  s1 <- fresh_heap ;;
  @kalloc_heap ia32 fuel 0x80000 false s1.

(** Two allocations that fill the heap, then the first is freed: the free
    list holds one hole of 84 bytes. *)
Definition small_hole_run : outcome state :=
  s1 <- fresh_heap ;;
  r2 <- @kalloc_heap ia32 1 64 false s1 ;;
  r3 <- @kalloc_heap ia32 1 (0x7F000 - 84 - 20) false (snd r2) ;;
  match fst r2 with
  | Some p => @kfree_heap ia32 p (snd r3)
  | None => Fatal
  end.

(** An allocation followed by its release, next to the free rest of the
    heap: the pointer, the state before and the state after the free. *)
Definition merge_run : outcome (Z * state * state) :=
  s1 <- fresh_heap ;;
  r2 <- @kalloc_heap ia32 1 64 false s1 ;;
  match fst r2 with
  | Some p => s3 <- @kfree_heap ia32 p (snd r2) ;; Ret (p, snd r2, s3)
  | None => Fatal
  end.

(** An allocated block whose header magic has been overwritten. *)
Definition corrupted_run : outcome (Z * state) :=
  s1 <- fresh_heap ;;
  r2 <- @kalloc_heap ia32 1 64 false s1 ;;
  match fst r2 with
  | Some p =>
      Ret (p, {| st_heap := st_heap (snd r2);
                 st_mem := @set_hdr_magic ia32 (st_mem (snd r2))
                             (@block_header ia32 p) 0 |})
  | None => Fatal
  end.



(** * Vocabulary of the further properties *)

(** [unchanged_outside lo hi m m']: the two memories agree on every byte
    outside [lo, hi). *)
Definition unchanged_outside (lo hi : Z) (m m' : mem) : Prop :=
  forall b, b < lo \/ hi <= b -> m' b = m b.

(** [same_bounds h h']: the two heap records start at the same address,
    have the same ceiling and the same capacity of the free list. *)
Definition same_bounds (h h' : heap) : Prop :=
  start_address h' = start_address h /\
  max_address h' = max_address h /\
  max_size (free_list h') = max_size (free_list h).

(** The padding that the search charges a hole for a page-aligned
    request. *)
Definition page_padding {A : abi} (loc : Z) : Z :=
  PAGE_SIZE - (loc + sizeof_header) mod PAGE_SIZE.

(** [chain m e a]: from [a] on, blocks with the magic and room for a header
    and a footer follow one another, and the last one ends at [e]. *)
Inductive chain {A : abi} (m : mem) (e : Z) : Z -> Prop :=
| chain_done : chain m e e
| chain_block (a : Z) :
    hdr_magic m a = HEAP_MAGIC ->
    sizeof_header + sizeof_footer <= hdr_size m a ->
    chain m e (a + hdr_size m a) ->
    chain m e a.

(** The size that an allocation in a hole of [old] bytes gives its block:
    the whole hole when the rest could not hold a header and a footer. *)
Definition granted_size {A : abi} (old new : Z) : Z :=
  if old - new <? sizeof_header + sizeof_footer then old else new.

(** ** More runs *)

(** A heap that cannot grow, with an empty free list. *)
Definition full_state : state :=
  {| st_heap := {| free_list := sorted_array_place 16;
                   start_address := 0x181000; end_address := 0x200000;
                   max_address := 0x200000 |};
     st_mem := zero_memory |}.

(** The state that [heap_create(0x100000, 0x200000, 0x400000)] returns. *)
Definition fresh_state : state :=
  match fresh_heap with
  | Ret s => s
  | _ => sample_state
  end.

(** Four allocations of 64 bytes in a fresh heap: blocks of 84 bytes at
    [0x181000], [0x181054], [0x1810A8] and [0x1810FC], then the hole. *)
Definition four_blocks : state :=
  let alloc s := state_after (@kalloc_heap ia32 1 64 false s) in
  alloc (alloc (alloc (alloc fresh_state))).

(** The same heap after the second block is freed. *)
Definition second_freed : state :=
  match @kfree_heap ia32 0x181060 four_blocks with
  | Ret s => s
  | _ => sample_state
  end.

(** Three blocks that fill a fresh heap, two of 84 bytes and one that
    takes the rest, after the first one is freed: a hole at [0x181000],
    and blocks in use at [0x181054] and [0x1810A8], the last one ending at
    [end_address]. *)
Definition last_block_state : state :=
  let alloc n s := state_after (@kalloc_heap ia32 1 n false s) in
  match @kfree_heap ia32 0x18100C
          (alloc (0x7F000 - 168 - 20) (alloc 64 (alloc 64 fresh_state))) with
  | Ret s => s
  | _ => sample_state
  end.

(** A fresh heap whose only hole has been allocated as a whole. *)
Definition taken_state : state :=
  state_after (@kalloc_heap ia32 1 (0x7F000 - 20) false fresh_state).

(** A fresh heap after one allocation of 64 bytes: a block of 84 bytes at
    [0x181000] and the rest of the heap as a hole behind it. *)
Definition one_block : state :=
  state_after (@kalloc_heap ia32 1 64 false fresh_state).

(** * Words and memory *)

(** Case analysis on every test of the goal. *)
Ltac case_ifs :=
  repeat match goal with
         | |- context [if ?c then _ else _] => destruct c
         end.

Lemma wrap_range x : 0 <= wrap x < 2 ^ 32.
Proof. unfold wrap. apply Z.mod_pos_bound. lia. Qed.

Lemma wrap_small x : 0 <= x < 2 ^ 32 -> wrap x = x.
Proof. intros. unfold wrap. apply Z.mod_small. lia. Qed.



Lemma wrap_neq x y : 0 < x - y < 2 ^ 32 -> wrap x <> wrap y.
Proof.
  intros Hd Heq. unfold wrap in Heq.
  pose proof (Z.div_mod x (2 ^ 32) ltac:(lia)) as Hx.
  pose proof (Z.div_mod y (2 ^ 32) ltac:(lia)) as Hy.
  rewrite Heq in Hx. lia.
Qed.

Lemma wrap_mod_page x : wrap x mod PAGE_SIZE = x mod PAGE_SIZE.
Proof.
  unfold wrap, PAGE_SIZE. apply Z.mod_mod_divide.
  exists (2 ^ 20). reflexivity.
Qed.

Lemma testbit_word_high n i : 0 <= n < 2 ^ 32 -> 32 <= i -> Z.testbit n i = false.
Proof.
  intros Hn Hi. rewrite <- (Z.mod_small n (2 ^ 32)) by lia.
  apply Z.mod_pow2_bits_high. lia.
Qed.

(** On a word, [align] clears the twelve low bits. *)
Lemma align_spec n : 0 <= n < 2 ^ 32 -> align n = PAGE_SIZE * (n / PAGE_SIZE).
Proof.
  intros Hn. unfold align, PAGE_MASK, PAGE_SIZE.
  change 0xFFFFF000 with (Z.shiftl (Z.ones 20) 12).
  change 0x1000 with (2 ^ 12).
  rewrite Z.mul_comm, <- Z.shiftr_div_pow2, <- Z.shiftl_mul_pow2 by lia.
  apply Z.bits_inj'. intros i Hi.
  rewrite Z.land_spec, !Z.shiftl_spec by lia.
  destruct (Z_lt_le_dec i 12) as [Hlo | Hhi].
  - rewrite !(Z.testbit_neg_r _ (i - 12)) by lia. apply andb_false_r.
  - rewrite Z.shiftr_spec by lia. replace (i - 12 + 12) with i by lia.
    destruct (Z_lt_le_dec i 32) as [Hmid | Hhigh].
    + rewrite Z.ones_spec_low by lia. apply andb_true_r.
    + rewrite testbit_word_high by lia. reflexivity.
Qed.

Lemma above_first_page_word a :
  0 <= a < 2 ^ 32 -> (above_first_page a <-> PAGE_SIZE <= a).
Proof.
  intros Ha. unfold above_first_page. fold PAGE_MASK. fold (align a).
  rewrite align_spec by assumption.
  pose proof (Z.div_mod a PAGE_SIZE ltac:(unfold PAGE_SIZE; lia)) as Hdm.
  pose proof (Z.mod_pos_bound a PAGE_SIZE ltac:(unfold PAGE_SIZE; lia)) as Hr.
  unfold PAGE_SIZE in *. split; intros H.
  - assert (0 <= a / 0x1000) by (apply Z.div_pos; lia). lia.
  - assert (1 <= a / 0x1000) by (apply Z.div_le_lower_bound; lia). lia.
Qed.

Lemma apart_fields c o1 n o2 k :
  0 <= n -> 0 <= k ->
  o1 + n <= o2 \/ o2 + k <= o1 ->
  o2 + k - o1 < 2 ^ 32 -> o1 + n - o2 < 2 ^ 32 ->
  apart (c + o1) n (c + o2) k.
Proof.
  intros Hn Hk Hd H1 H2 i j Hi Hj.
  destruct Hd.
  - intros Heq. symmetry in Heq. revert Heq. apply wrap_neq. lia.
  - apply wrap_neq. lia.
Qed.

Lemma load8_range m a : 0 <= load8 m a < 256.
Proof. unfold load8. apply Z.mod_pos_bound. lia. Qed.

Lemma load32_range m a : 0 <= load32 m a < 2 ^ 32.
Proof.
  unfold load32.
  pose proof (load8_range m a). pose proof (load8_range m (a + 1)).
  pose proof (load8_range m (a + 2)). pose proof (load8_range m (a + 3)).
  lia.
Qed.

Lemma load8_store8_same m a v : load8 (store8 m a v) a = v mod 256.
Proof.
  unfold load8, store8. rewrite Z.eqb_refl.
  apply Z.mod_mod. lia.
Qed.

Lemma load8_store8_other m a v b :
  wrap a <> wrap b -> load8 (store8 m a v) b = load8 m b.
Proof.
  intros H. unfold load8, store8.
  destruct (Z.eqb_spec (wrap b) (wrap a)); [congruence | reflexivity].
Qed.

Lemma load8_store32_other m a v b :
  apart a 4 b 1 -> load8 (store32 m a v) b = load8 m b.
Proof.
  intros H. unfold store32.
  pose proof (H 0 0 ltac:(lia) ltac:(lia)) as H0.
  pose proof (H 1 0 ltac:(lia) ltac:(lia)) as H1.
  pose proof (H 2 0 ltac:(lia) ltac:(lia)) as H2.
  pose proof (H 3 0 ltac:(lia) ltac:(lia)) as H3.
  rewrite !Z.add_0_r in *.
  rewrite !load8_store8_other; auto.
Qed.

Lemma load32_store8_other m a v b :
  apart a 1 b 4 -> load32 (store8 m a v) b = load32 m b.
Proof.
  intros H. unfold load32.
  pose proof (H 0 0 ltac:(lia) ltac:(lia)) as H0.
  pose proof (H 0 1 ltac:(lia) ltac:(lia)) as H1.
  pose proof (H 0 2 ltac:(lia) ltac:(lia)) as H2.
  pose proof (H 0 3 ltac:(lia) ltac:(lia)) as H3.
  rewrite !Z.add_0_r in *.
  rewrite !load8_store8_other; auto.
Qed.

Lemma load32_store32_other m a v b :
  apart a 4 b 4 -> load32 (store32 m a v) b = load32 m b.
Proof.
  intros H. unfold load32.
  rewrite <- (Z.add_0_r b) at 1.
  rewrite !load8_store32_other; [rewrite Z.add_0_r; reflexivity | | | |];
    intros i j Hi Hj; replace j with 0 by lia; rewrite Z.add_0_r;
    [specialize (H i 3) | specialize (H i 2) | specialize (H i 1)
     | specialize (H i 0)]; apply H; lia.
Qed.

(** A word is the little-endian sum of its four bytes. *)
Lemma bytes_of_word v :
  v mod 256 + 2 ^ 8 * ((v / 2 ^ 8) mod 256) + 2 ^ 16 * ((v / 2 ^ 16) mod 256)
  + 2 ^ 24 * ((v / 2 ^ 24) mod 256) = wrap v.
Proof.
  unfold wrap.
  change (2 ^ 16) with (2 ^ 8 * 2 ^ 8).
  change (2 ^ 24) with (2 ^ 8 * 2 ^ 8 * 2 ^ 8).
  rewrite <- !Z.div_div by lia.
  change (2 ^ 8) with 256.
  set (v1 := v / 256). set (v2 := v1 / 256). set (v3 := v2 / 256).
  pose proof (Z.div_mod v 256 ltac:(lia)) as E0. fold v1 in E0.
  pose proof (Z.div_mod v1 256 ltac:(lia)) as E1. fold v2 in E1.
  pose proof (Z.div_mod v2 256 ltac:(lia)) as E2. fold v3 in E2.
  pose proof (Z.div_mod v3 256 ltac:(lia)) as E3.
  pose proof (Z.mod_pos_bound v 256 ltac:(lia)).
  pose proof (Z.mod_pos_bound v1 256 ltac:(lia)).
  pose proof (Z.mod_pos_bound v2 256 ltac:(lia)).
  pose proof (Z.mod_pos_bound v3 256 ltac:(lia)).
  apply Z.mod_unique with (q := v3 / 256); lia.
Qed.

Lemma load32_store32_same m a v : load32 (store32 m a v) a = wrap v.
Proof.
  unfold load32, store32.
  assert (N : forall i j, 0 <= i < j -> j < 4 -> wrap (a + j) <> wrap (a + i))
    by (intros i j Hi Hj; apply wrap_neq; lia).
  pose proof (N 0 1 ltac:(lia) ltac:(lia)) as N01.
  pose proof (N 0 2 ltac:(lia) ltac:(lia)) as N02.
  pose proof (N 0 3 ltac:(lia) ltac:(lia)) as N03.
  pose proof (N 1 2 ltac:(lia) ltac:(lia)) as N12.
  pose proof (N 1 3 ltac:(lia) ltac:(lia)) as N13.
  pose proof (N 2 3 ltac:(lia) ltac:(lia)) as N23.
  rewrite Z.add_0_r in *.
  rewrite (load8_store8_other _ (a + 3) _ a) by assumption.
  rewrite (load8_store8_other _ (a + 2) _ a) by assumption.
  rewrite (load8_store8_other _ (a + 1) _ a) by assumption.
  rewrite load8_store8_same.
  rewrite (load8_store8_other _ (a + 3) _ (a + 1)) by assumption.
  rewrite (load8_store8_other _ (a + 2) _ (a + 1)) by assumption.
  rewrite load8_store8_same.
  rewrite (load8_store8_other _ (a + 3) _ (a + 2)) by assumption.
  rewrite !load8_store8_same.
  apply bytes_of_word.
Qed.

(** * [heap_resize] *)

Lemma round_up_page_cases n :
  (n mod PAGE_SIZE = 0 /\ round_up_page n = n) \/
  (n mod PAGE_SIZE <> 0 /\ round_up_page n = round_down_page n + PAGE_SIZE).
Proof.
  unfold round_up_page, round_down_page, PAGE_SIZE.
  pose proof (Z.div_mod n 0x1000 ltac:(lia)) as Hdm.
  pose proof (Z.mod_pos_bound n 0x1000 ltac:(lia)) as Hr.
  destruct (Z.eq_dec (n mod 0x1000) 0) as [Hz | Hnz]; [left | right]; split; auto.
  - replace ((n + (0x1000 - 1)) / 0x1000) with (n / 0x1000); [lia |].
    apply Z.div_unique with (r := 0x1000 - 1); lia.
  - replace ((n + (0x1000 - 1)) / 0x1000) with (n / 0x1000 + 1); [lia |].
    apply Z.div_unique with (r := n mod 0x1000 - 1); lia.
Qed.

Lemma round_up_page_ge n : n <= round_up_page n < n + PAGE_SIZE.
Proof.
  pose proof (Z.div_mod n PAGE_SIZE ltac:(unfold PAGE_SIZE; lia)) as Hdm.
  pose proof (Z.mod_pos_bound n PAGE_SIZE ltac:(unfold PAGE_SIZE; lia)) as Hr.
  destruct (round_up_page_cases n) as [[Hz Hu] | [Hnz Hu]]; rewrite Hu;
    unfold round_down_page; lia.
Qed.

Lemma round_up_page_aligned n : round_up_page n mod PAGE_SIZE = 0.
Proof.
  unfold round_up_page. rewrite Z.mul_comm. apply Z.mod_mul. unfold PAGE_SIZE. lia.
Qed.

(** Without wrap-around the first statement of [heap_resize] rounds up
    to the next page boundary. *)
Lemma page_round_spec n :
  0 <= n -> round_up_page n < 2 ^ 32 -> page_round n = round_up_page n.
Proof.
  intros Hn Hr. unfold page_round.
  pose proof (round_up_page_ge n) as Hge.
  rewrite align_spec by lia. fold (round_down_page n).
  pose proof (Z.div_mod n PAGE_SIZE ltac:(unfold PAGE_SIZE; lia)) as Hdm.
  fold (round_down_page n) in Hdm.
  pose proof (Z.mod_pos_bound n PAGE_SIZE ltac:(unfold PAGE_SIZE; lia)) as Hm.
  destruct (round_up_page_cases n) as [[Hz Hu] | [Hnz Hu]].
  - replace (round_down_page n =? n) with true by (symmetry; apply Z.eqb_eq; lia).
    lia.
  - replace (round_down_page n =? n) with false by (symmetry; apply Z.eqb_neq; lia).
    rewrite wrap_small by lia. lia.
Qed.

Lemma land_page_aligned_1 r : r mod PAGE_SIZE = 0 -> Z.land r 1 = 0.
Proof.
  intros Hr. change 1 with (Z.ones 1). rewrite Z.land_ones by lia.
  apply Z.mod_divide in Hr; [| unfold PAGE_SIZE; lia].
  destruct Hr as [k ->]. unfold PAGE_SIZE.
  replace (k * 0x1000) with ((k * 0x800) * 2 ^ 1) by lia.
  apply Z.mod_mul. lia.
Qed.

Lemma heap_length_wf h : heap_wf h -> heap_length h = end_address h - start_address h.
Proof. intros [? ? ?]. unfold heap_length. apply wrap_small. lia. Qed.

Lemma heap_resize_free_list n h :
  free_list (snd (heap_resize n h)) = free_list h.
Proof.
  unfold heap_resize.
  case_ifs; reflexivity.
Qed.

Lemma heap_resize_code n h : fst (heap_resize n h) <> -1 -> fst (heap_resize n h) = 0.
Proof.
  unfold heap_resize.
  case_ifs; simpl; intros; try reflexivity; congruence.
Qed.

Lemma sample_heap_wf : heap_wf sample_heap.
Proof. split; vm_compute; intuition discriminate. Qed.

(** C3, as amended.  Growing: when the requested size exceeds the
    current size and neither the rounded size nor the new end address
    overflows a 32-bit word, [heap_resize] rounds the size up to the next
    page boundary; it returns -1 and leaves the heap as it is when
    [start_address] plus the rounded size exceeds [max_address], and
    otherwise sets [end_address] to that sum and returns 0. *)
Theorem heap_resize_grow (h : heap) (n : Z) :
  heap_wf h ->
  0 <= n < 2 ^ 32 ->
  heap_length h < n ->
  start_address h + round_up_page n < 2 ^ 32 ->
  (max_address h < start_address h + round_up_page n ->
   heap_resize n h = (-1, h)) /\
  (start_address h + round_up_page n <= max_address h ->
   heap_resize n h =
   (0, set_end_address h (start_address h + round_up_page n))).
Proof.
  intros Hwf Hn Hlt Hfit.
  pose proof (round_up_page_ge n) as Hge.
  pose proof (round_up_page_aligned n) as Hal.
  destruct Hwf as [Hs He Hm].
  unfold heap_resize. rewrite (wrap_small n) by lia.
  fold (page_round n). rewrite page_round_spec by lia.
  fold (heap_length h).
  replace (round_up_page n <? heap_length h) with false
    by (symmetry; apply Z.ltb_ge; lia).
  replace (round_up_page n >? heap_length h) with true
    by (symmetry; apply Z.gtb_lt; lia).
  change (if 0xFFFFF000 =? 0 then 0 else 1) with 1.
  rewrite land_page_aligned_1 by assumption. simpl (0 =? 0).
  cbv iota. rewrite wrap_small by lia.
  split; intros Hcmp.
  - replace (start_address h + round_up_page n >? max_address h) with true
      by (symmetry; apply Z.gtb_lt; lia).
    reflexivity.
  - replace (start_address h + round_up_page n >? max_address h) with false
      by (rewrite Z.gtb_ltb; symmetry; apply Z.ltb_ge; lia).
    reflexivity.
Qed.

(** A request of [0x7F001] bytes on the sample heap grows it by a page;
    one of [0x300000] bytes is refused. *)
Lemma heap_resize_grow_witness :
  heap_resize 0x7F001 sample_heap = (0, set_end_address sample_heap 0x201000) /\
  heap_resize 0x300000 sample_heap = (-1, sample_heap).
Proof.
  split.
  - apply (heap_resize_grow sample_heap 0x7F001 sample_heap_wf);
      vm_compute; intuition discriminate.
  - apply (heap_resize_grow sample_heap 0x300000 sample_heap_wf);
      vm_compute; intuition discriminate.
Defined.

(** C3 as stated fails when the rounding wraps: a request of
    [0xFFFFF001] bytes is larger than the current size and its rounded
    size puts the end beyond [max_address], yet [heap_resize] returns 0
    and moves [end_address] down to [start_address]. *)
Lemma heap_resize_grow_wraps :
  heap_length sample_heap < 0xFFFFF001 /\
  max_address sample_heap
    < start_address sample_heap + round_up_page 0xFFFFF001 /\
  heap_resize 0xFFFFF001 sample_heap
    = (0, set_end_address sample_heap (start_address sample_heap)) /\
  heap_resize 0xFFFFF001 sample_heap <> (-1, sample_heap).
Proof. vm_compute. repeat split; discriminate. Qed.

(** C8, as amended.  Shrinking: when the requested size rounded up to
    the next page boundary does not exceed the current size and, if it is
    below it, has bit 12 clear, [heap_resize] sets [end_address] to
    [start_address] plus the size rounded up and returns 0. *)
Theorem heap_resize_shrink (h : heap) (n : Z) :
  heap_wf h ->
  0 <= n ->
  round_up_page n <= heap_length h ->
  (round_up_page n < heap_length h -> Z.land (round_up_page n) 0x1000 = 0) ->
  heap_resize n h =
  (0, set_end_address h (start_address h + round_up_page n)).
Proof.
  intros Hwf Hn Hle Hbit.
  pose proof (round_up_page_ge n) as Hge.
  pose proof (heap_length_wf h Hwf) as Hlen.
  destruct Hwf as [Hs He Hm].
  unfold heap_resize. rewrite (wrap_small n) by lia.
  fold (page_round n). rewrite page_round_spec by lia.
  fold (heap_length h).
  destruct (Z.ltb_spec (round_up_page n) (heap_length h)) as [Hlt | Hge'].
  - rewrite (Hbit Hlt). simpl (0 =? 0). cbv iota.
    rewrite wrap_small by lia. reflexivity.
  - replace (round_up_page n >? heap_length h) with false
      by (rewrite Z.gtb_ltb; symmetry; apply Z.ltb_ge; lia).
    rewrite wrap_small by lia. reflexivity.
Qed.

Lemma heap_resize_shrink_witness :
  heap_resize 0x3F01 sample_heap = (0, set_end_address sample_heap 0x185000).
Proof.
  apply (heap_resize_shrink sample_heap 0x3F01 sample_heap_wf);
    [lia | vm_compute; discriminate | reflexivity].
Defined.

(** C8 as stated fails: a request of [0x3800] bytes, below the current
    size, moves the end to [start_address + 0x4000], the size rounded up,
    not to [start_address + 0x3000], the size rounded down. *)
Lemma heap_resize_shrink_rounds_up :
  0x3800 < heap_length sample_heap /\
  end_address (snd (heap_resize 0x3800 sample_heap))
    = start_address sample_heap + 0x4000 /\
  end_address (snd (heap_resize 0x3800 sample_heap))
    <> start_address sample_heap + round_down_page 0x3800.
Proof. vm_compute. repeat split; discriminate. Qed.

(** C9.  [heap_resize] leaves [start_address] and [max_address] as they
    are, whatever the requested size and the branch taken. *)
Theorem heap_resize_frame (n : Z) (h : heap) :
  start_address (snd (heap_resize n h)) = start_address h /\
  max_address (snd (heap_resize n h)) = max_address h.
Proof.
  unfold heap_resize.
  case_ifs; simpl; auto.
Qed.

(** A page-aligned request with bit 12 set, here [0x5000], shrinks the
    heap to [0x2000] bytes. *)
Example heap_resize_shrink_bit12 :
  heap_resize 0x5000 sample_heap = (0, set_end_address sample_heap 0x183000).
Proof. reflexivity. Qed.

(** * The free list and [find_smallest_hole] *)

Section Search.
Context {A : abi}.

Lemma find_from_bounds m size pa l i :
  0 <= i ->
  find_from m size pa l i = -1 \/
  i <= find_from m size pa l i < i + Z.of_nat (length l).
Proof.
  revert i. induction l as [| h r IH]; intros i Hi; simpl; [left; reflexivity |].
  destruct (hole_size m pa h >=? size); [right; lia |].
  destruct (IH (i + 1) ltac:(lia)) as [H | H]; [left; assumption | right; lia].
Qed.

(** The entry that the search returns passes the test of the loop. *)
Lemma find_from_hit m size pa l i :
  0 <= i ->
  find_from m size pa l i <> -1 ->
  hole_size m pa (nth (Z.to_nat (find_from m size pa l i - i)) l 0) >= size.
Proof.
  revert i. induction l as [| h r IH]; intros i Hi; simpl; [congruence |].
  destruct (Z.geb_spec (hole_size m pa h) size) as [Hge | Hlt].
  - intros _. rewrite Z.sub_diag. simpl. lia.
  - intros Hne. specialize (IH (i + 1) ltac:(lia) Hne).
    destruct (find_from_bounds m size pa r (i + 1) ltac:(lia)) as [Hb | Hb];
      [congruence |].
    replace (Z.to_nat (find_from m size pa r (i + 1) - i))
      with (S (Z.to_nat (find_from m size pa r (i + 1) - (i + 1)))) by lia.
    exact IH.
Qed.

(** Without page alignment the loop is the first fit of the
    specification. *)
Lemma find_from_unaligned m size l i :
  find_from m size false l i = first_fit_from m size false l i.
Proof.
  revert i. induction l as [| h r IH]; intros i; simpl; [reflexivity |].
  unfold hole_size, effective_size, hole_offset. rewrite Z.sub_0_r.
  rewrite wrap_small by apply load32_range.
  rewrite IH. reflexivity.
Qed.

Lemma find_smallest_hole_unaligned size st :
  find_smallest_hole size false st = first_fit size false st.
Proof. apply find_from_unaligned. Qed.

(** With page alignment the two agree on a free list in which every
    hole needs some padding and is at least as large as it. *)
Lemma find_from_aligned m size l i :
  Forall (fun loc => 0 < alignment_padding loc <= hdr_size m loc) l ->
  find_from m size true l i = first_fit_from m size true l i.
Proof.
  intros Hall. revert i.
  induction Hall as [| h r Hh _ IH]; intros i; simpl; [reflexivity |].
  rewrite IH.
  replace (hole_size m true h) with (effective_size m true h); [reflexivity |].
  unfold hole_size, effective_size, hole_offset, alignment_padding in *.
  rewrite wrap_mod_page.
  pose proof (Z.mod_pos_bound (h + sizeof_header) PAGE_SIZE
                ltac:(unfold PAGE_SIZE; lia)) as Hr.
  pose proof (load32_range m (h + off_size)) as Hs.
  fold (hdr_size m h) in Hs.
  destruct (Z.eq_dec ((h + sizeof_header) mod PAGE_SIZE) 0) as [Hz | Hnz].
  - rewrite Hz in Hh. rewrite Z.sub_0_r, Z.mod_same in Hh
      by (unfold PAGE_SIZE; lia). lia.
  - rewrite Z.mod_small in Hh |- * by lia.
    symmetry. apply wrap_small. lia.
Qed.

End Search.

(** * The sorted array *)

Lemma insert_sorted_one_more lt x l : one_more l (insert_sorted lt x l).
Proof.
  induction l as [| y r IH]; simpl.
  - exists x, [], []. split; reflexivity.
  - destruct (lt y x).
    + destruct IH as (x' & pre & post & Hl & Hl').
      exists x', (y :: pre), post. simpl. rewrite <- Hl, <- Hl'. split; reflexivity.
    + exists x, [], (y :: r). split; reflexivity.
Qed.

Lemma one_more_In l l' a : one_more l l' -> In a l -> In a l'.
Proof.
  intros (x & pre & post & -> & ->) Hin.
  apply in_app_or in Hin. apply in_or_app. simpl. tauto.
Qed.

Lemma same_or_one_more_In l l' a : same_or_one_more l l' -> In a l -> In a l'.
Proof. intros [-> | H] Hin; [assumption | eapply one_more_In; eauto]. Qed.

Lemma remove_nth_length n l :
  (n < length l)%nat -> length l = S (length (remove_nth n l)).
Proof.
  revert n. induction l as [| x r IH]; intros n Hn; simpl in *; [lia |].
  destruct n as [| k]; [reflexivity |]. simpl. rewrite <- IH by lia. reflexivity.
Qed.

Lemma lookup_in_range i fl :
  0 <= i < sa_size fl ->
  sorted_array_lookup i fl = Ret (nth (Z.to_nat i) (storage fl) 0).
Proof.
  intros H. unfold sorted_array_lookup.
  replace (0 <=? i) with true by (symmetry; apply Z.leb_le; lia).
  replace (i <? sa_size fl) with true by (symmetry; apply Z.ltb_lt; lia).
  reflexivity.
Qed.


Lemma remove_in_range i fl :
  0 <= i < sa_size fl ->
  sorted_array_remove i fl =
  Ret {| storage := remove_nth (Z.to_nat i) (storage fl); max_size := max_size fl |}.
Proof.
  intros H. unfold sorted_array_remove.
  replace (0 <=? i) with true by (symmetry; apply Z.leb_le; lia).
  replace (i <? sa_size fl) with true by (symmetry; apply Z.ltb_lt; lia).
  reflexivity.
Qed.

(** * [kalloc_heap] *)

Section Allocation.
Context {A : abi}.

(** ** The growth path *)

(** With a hole in the free list the scan for the last header never
    leaves its loop. *)
Lemma last_header_scan_spins fuel fl index value :
  0 < sa_size fl ->
  last_header_scan fuel fl 0 index value = OutOfFuel.
Proof.
  intros Hpos. revert index value.
  induction fuel as [| fuel IH]; intros index value; simpl; [reflexivity |].
  replace (0 <? sa_size fl) with true by (symmetry; apply Z.ltb_lt; lia).
  rewrite lookup_in_range by lia. cbn [bind].
  destruct (_ >? value); apply IH.
Qed.


(** A call that finds no hole, grows the heap and has a hole in its free
    list does not return, whatever the fuel. *)
Lemma kalloc_heap_spins fuel size page_align st :
  find_smallest_hole (wrap (wrap size + sizeof_header + sizeof_footer))
    page_align st = -1 ->
  fst (heap_resize
         (wrap (wrap (end_address (st_heap st) - start_address (st_heap st))
                + wrap (wrap size + sizeof_header + sizeof_footer)))
         (st_heap st)) <> -1 ->
  storage (free_list (st_heap st)) <> [] ->
  kalloc_heap fuel size page_align st = OutOfFuel.
Proof.
  intros Hfind Hres Hne.
  destruct fuel as [| fuel]; [reflexivity |].
  simpl. unfold kalloc_body. rewrite Hfind. rewrite Z.eqb_refl.
  rewrite (heap_resize_code _ _ Hres).
  change (wrap 0 =? wrap (-1)) with false. cbv iota.
  unfold extend_free_space.
  rewrite last_header_scan_spins; [reflexivity |].
  rewrite heap_resize_free_list. unfold sa_size.
  destruct (storage (free_list (st_heap st))); [contradiction | simpl; lia].
Qed.



End Allocation.

(** ** Headers under later stores *)

Section Frames.
Context {A : abi}.
Hypothesis abi_wf : abi_ok A.

(** What [write_chunk_header] leaves in memory. *)
Lemma write_chunk_header_fields m c n :
  hdr_magic (write_chunk_header m c n) c = HEAP_MAGIC /\
  hdr_allocated (write_chunk_header m c n) c = 1 /\
  hdr_size (write_chunk_header m c n) c = wrap n.
Proof.
  destruct abi_wf.
  unfold write_chunk_header, hdr_magic, hdr_allocated, hdr_size,
    set_hdr_magic, set_hdr_allocated, set_hdr_size.
  repeat split.
  - rewrite load32_store32_other by (apply apart_fields; lia).
    rewrite load32_store8_other by (apply apart_fields; lia).
    rewrite load32_store32_same. apply wrap_small. assumption.
  - rewrite load8_store32_other by (apply apart_fields; lia).
    rewrite load8_store8_same. reflexivity.
  - apply load32_store32_same.
Qed.








End Frames.

(** ** Placement *)

Section Placement.
Context {A : abi}.
Hypothesis abi_wf : abi_ok A.

















(** ** The entry of the found hole *)

Lemma write_remainder_free_list loc old new size st :
  sa_size (free_list (st_heap st)) < max_size (free_list (st_heap st)) ->
  exists st', write_remainder loc old new size st = Ret st' /\
    same_or_one_more (storage (free_list (st_heap st)))
                     (storage (free_list (st_heap st'))).
Proof.
  intros Hcap. unfold write_remainder.
  destruct (wrap (old - new) >? 0).
  - unfold sorted_array_insert.
    replace (max_size (free_list (st_heap st)) <=? sa_size (free_list (st_heap st)))
      with false by (symmetry; apply Z.leb_gt; lia).
    simpl. eexists. split; [reflexivity |]. simpl.
    right. apply insert_sorted_one_more.
  - exists st. split; [reflexivity | left; reflexivity].
Qed.

(** The free list after the remainder: one entry more, the header of the
    hole behind the chunk, when something is left of the old hole. *)
Lemma write_remainder_storage loc old new size st :
  sa_size (free_list (st_heap st)) < max_size (free_list (st_heap st)) ->
  exists st', write_remainder loc old new size st = Ret st' /\
    storage (free_list (st_heap st')) =
      if wrap (old - new) >? 0
      then insert_sorted (header_less_than (st_mem st'))
             (wrap (loc + sizeof_header + size + sizeof_footer))
             (storage (free_list (st_heap st)))
      else storage (free_list (st_heap st)).
Proof.
  intros Hcap. unfold write_remainder.
  destruct (wrap (old - new) >? 0).
  - unfold sorted_array_insert.
    replace (max_size (free_list (st_heap st)) <=? sa_size (free_list (st_heap st)))
      with false by (symmetry; apply Z.leb_gt; lia).
    cbn [bind]. eexists. split; reflexivity.
  - exists st. split; reflexivity.
Qed.

Lemma count_occ_insert_sorted lt x l y :
  count_occ Z.eq_dec (insert_sorted lt x l) y = count_occ Z.eq_dec (x :: l) y.
Proof.
  induction l as [| z r IH]; cbn [insert_sorted]; [reflexivity |].
  destruct (lt z x); [| reflexivity].
  cbn [count_occ] in *. rewrite IH.
  destruct (Z.eq_dec z y), (Z.eq_dec x y); reflexivity.
Qed.

Lemma count_occ_remove_nth n l y :
  (n < length l)%nat ->
  count_occ Z.eq_dec l y =
  (count_occ Z.eq_dec (remove_nth n l) y
   + if Z.eq_dec (nth n l 0%Z) y then 1 else 0)%nat.
Proof.
  revert n. induction l as [| a r IH]; intros [| n] Hn; cbn [length] in Hn;
    try lia; cbn [remove_nth nth count_occ].
  - destruct (Z.eq_dec a y); lia.
  - rewrite (IH n) by lia.
    destruct (Z.eq_dec a y), (Z.eq_dec (nth n r 0) y); lia.
Qed.

(** C10.  When [kalloc_heap] finds a hole at index [idx], has room for
    one more free-list entry and returns.  On the carve path
    ([page_align] set and one of the bits 12 and above of the hole's
    address set) no entry is removed: the free list is the old one, or the
    old one with the header of a remainder inserted, every address occurs
    in it at least as often as before, and the entry of the chosen hole is
    still in it.  Otherwise the entry at [idx] is removed: the free list is
    the old one without its entry at [idx], or that list with the header of
    the remainder, the address right behind the allocated chunk, inserted;
    unless that address is the address of the found hole itself, the
    address of the found hole occurs once less than before. *)
Theorem kalloc_heap_found_hole_entry (fuel : nat) (size : Z) (page_align : bool)
    (st : state) (idx : Z) :
  find_smallest_hole (wrap (wrap size + sizeof_header + sizeof_footer))
    page_align st = idx ->
  0 <= idx ->
  sa_size (free_list (st_heap st)) < max_size (free_list (st_heap st)) ->
  max_size (free_list (st_heap st)) < 2 ^ 32 ->
  let entries := storage (free_list (st_heap st)) in
  let loc := nth (Z.to_nat idx) entries 0 in
  exists p st',
    kalloc_heap (S fuel) size page_align st = Ret (Some p, st') /\
    let entries' := storage (free_list (st_heap st')) in
    let lt := header_less_than (st_mem st') in
    (page_align = true /\ Z.land loc 0xFFFFF000 <> 0 ->
     (entries' = entries \/
      exists hole, entries' = insert_sorted lt hole entries) /\
     (forall x, (count_occ Z.eq_dec entries x
                 <= count_occ Z.eq_dec entries' x)%nat) /\
     In loc entries') /\
    (page_align = false \/ Z.land loc 0xFFFFF000 = 0 ->
     let hole := wrap (loc + sizeof_header + wrap size + sizeof_footer) in
     (entries' = remove_nth (Z.to_nat idx) entries \/
      entries' = insert_sorted lt hole (remove_nth (Z.to_nat idx) entries)) /\
     (hole <> loc ->
      (count_occ Z.eq_dec entries' loc + 1
       = count_occ Z.eq_dec entries loc)%nat)).
Proof.
  intros Hfind Hidx Hcap Hmax entries loc.
  assert (Hrange : 0 <= idx < sa_size (free_list (st_heap st))).
  { destruct (find_from_bounds (st_mem st)
                (wrap (wrap size + sizeof_header + sizeof_footer)) page_align
                entries 0 ltac:(lia)) as [H | H];
      unfold find_smallest_hole in Hfind; fold entries in Hfind;
      rewrite Hfind in H; unfold sa_size; fold entries; lia. }
  assert (Hlen : (Z.to_nat idx < length entries)%nat)
    by (unfold sa_size in Hrange; fold entries in Hrange; lia).
  assert (Hremoved :
    let hole := wrap (loc + sizeof_header + wrap size + sizeof_footer) in
    forall (lt : Z -> Z -> bool) (l : list Z),
      l = remove_nth (Z.to_nat idx) entries \/
      l = insert_sorted lt hole (remove_nth (Z.to_nat idx) entries) ->
      hole <> loc ->
      (count_occ Z.eq_dec l loc + 1 = count_occ Z.eq_dec entries loc)%nat).
  { intros hole lt l Hl Hne.
    rewrite (count_occ_remove_nth (Z.to_nat idx) entries loc Hlen).
    fold loc. destruct (Z.eq_dec loc loc) as [_ | Hn]; [| congruence].
    destruct Hl as [-> | ->]; [reflexivity |].
    rewrite count_occ_insert_sorted. cbn [count_occ].
    destruct (Z.eq_dec hole loc); [contradiction | reflexivity]. }
  cbn [kalloc_heap]. unfold kalloc_body. rewrite Hfind.
  rewrite (wrap_small idx) by lia.
  replace (idx =? wrap (-1)) with false.
  2:{ symmetry; apply Z.eqb_neq; change (wrap (-1)) with (2 ^ 32 - 1). clear - Hrange Hcap Hmax. lia. }
  unfold kalloc_place. rewrite lookup_in_range by assumption.
  cbn [bind]. fold entries. fold loc.
  set (old := hdr_size (st_mem st) loc).
  set (new := wrap (wrap size + sizeof_header + sizeof_footer)).
  assert (Hplain :
    forall fl : sorted_array,
      storage fl = remove_nth (Z.to_nat idx) entries ->
      sa_size fl < max_size fl ->
      forall m1 : mem,
      exists st2,
        write_remainder loc old
          (if wrap (old - new) <? sizeof_header + sizeof_footer then old else new)
          (if wrap (old - new) <? sizeof_header + sizeof_footer
           then wrap (wrap size + old - new) else wrap size)
          {| st_heap := set_free_list (st_heap st) fl; st_mem := m1 |} = Ret st2 /\
        (storage (free_list (st_heap st2)) = remove_nth (Z.to_nat idx) entries \/
         storage (free_list (st_heap st2)) =
           insert_sorted (header_less_than (st_mem st2))
             (wrap (loc + sizeof_header + wrap size + sizeof_footer))
             (remove_nth (Z.to_nat idx) entries))).
  { intros fl Hfl Hroom m1.
    match goal with
    | |- context [write_remainder ?l ?o ?n ?s ?t] =>
        destruct (write_remainder_storage l o n s t) as (st2 & Hrun & Hst)
    end; [exact Hroom |].
    exists st2. split; [exact Hrun |].
    cbn [st_heap set_free_list free_list] in Hst. rewrite Hfl in Hst.
    destruct (wrap (old - new) <? sizeof_header + sizeof_footer).
    - rewrite Z.sub_diag in Hst. change (wrap 0 >? 0) with false in Hst.
      left. exact Hst.
    - destruct (wrap (old - new) >? 0); [right | left]; exact Hst. }
  unfold takes_carve_path.
  destruct page_align; cbn [andb];
    [destruct (Z.eqb_spec (Z.land loc 0xFFFFF000) 0) as [Hz | Hnz]; cbn [negb] |].
  - (* aligned request, hole in the first page: the entry is removed *)
    rewrite remove_in_range by assumption. cbn [bind].
    destruct (Hplain {| storage := remove_nth (Z.to_nat idx) entries;
                        max_size := max_size (free_list (st_heap st)) |}
                eq_refl) with (m1 := write_chunk (st_mem st) loc
                  (if wrap (old - new) <? sizeof_header + sizeof_footer
                   then old else new)
                  (if wrap (old - new) <? sizeof_header + sizeof_footer
                   then wrap (wrap size + old - new) else wrap size))
      as (st2 & Hrun & Hst).
    { pose proof (remove_nth_length (Z.to_nat idx) entries Hlen) as Hl.
      unfold sa_size in *. cbn [storage max_size]. fold entries in Hcap. lia. }
    fold entries. rewrite Hrun.
    cbn [bind]. do 2 eexists. split; [reflexivity |]. cbn [snd fst].
    split; [intros [_ Hc]; contradiction |].
    intros _. split; [exact Hst | exact (Hremoved _ _ Hst)].
  - (* the carve path: nothing is removed *)
    cbn [bind].
    destruct (carve_aligned (st_mem st) loc old) as [[m1 loc1] old1] eqn:Hcarve.
    match goal with
    | |- context [write_remainder ?l ?o ?n ?s ?t] =>
        destruct (write_remainder_storage l o n s t) as (st2 & -> & Hst)
    end.
    { cbn. destruct (free_list (st_heap st)); assumption. }
    cbn [bind]. do 2 eexists. split; [reflexivity |].
    cbn [st_heap set_free_list free_list] in Hst. fold entries in Hst.
    assert (Hmem : In loc entries) by (apply nth_In; exact Hlen).
    split.
    + intros _.
      destruct (wrap (old1 - _) >? 0).
      * rewrite Hst. split; [right; eexists; reflexivity |]. split.
        -- intros x. rewrite count_occ_insert_sorted. cbn [count_occ].
           destruct (Z.eq_dec _ x); lia.
        -- eapply one_more_In; [apply insert_sorted_one_more | exact Hmem].
      * rewrite Hst. split; [left; reflexivity |]. split; [lia | exact Hmem].
    + intros [Hc | Hc]; [discriminate | contradiction].
  - (* no alignment requested: the entry is removed *)
    rewrite remove_in_range by assumption. cbn [bind].
    destruct (Hplain {| storage := remove_nth (Z.to_nat idx) entries;
                        max_size := max_size (free_list (st_heap st)) |}
                eq_refl) with (m1 := write_chunk (st_mem st) loc
                  (if wrap (old - new) <? sizeof_header + sizeof_footer
                   then old else new)
                  (if wrap (old - new) <? sizeof_header + sizeof_footer
                   then wrap (wrap size + old - new) else wrap size))
      as (st2 & Hrun & Hst).
    { pose proof (remove_nth_length (Z.to_nat idx) entries Hlen) as Hl.
      unfold sa_size in *. cbn [storage max_size]. fold entries in Hcap. lia. }
    fold entries. rewrite Hrun.
    cbn [bind]. do 2 eexists. split; [reflexivity |]. cbn [snd fst].
    split; [intros [Hc _]; discriminate |].
    intros _. split; [exact Hst | exact (Hremoved _ _ Hst)].
Qed.

End Placement.

Lemma ia32_ok : abi_ok ia32.
Proof. split; vm_compute; intuition discriminate. Qed.




Lemma kalloc_heap_found_hole_entry_witness :
  (exists p st',
     @kalloc_heap ia32 1 64 true sample_state = Ret (Some p, st') /\
     In 0x181000 (storage (free_list (st_heap st')))) /\
  (exists p st',
     @kalloc_heap ia32 1 64 false sample_state = Ret (Some p, st') /\
     count_occ Z.eq_dec (storage (free_list (st_heap st'))) 0x181000 = 0%nat).
Proof.
  split.
  - destruct (@kalloc_heap_found_hole_entry ia32 0 64 true sample_state 0)
      as (p & st' & Hret & Hcarve & _);
      [vm_compute; reflexivity | lia | vm_compute; reflexivity
      | vm_compute; reflexivity |].
    exists p, st'. split; [exact Hret |].
    apply Hcarve. split; [reflexivity | vm_compute; discriminate].
  - destruct (@kalloc_heap_found_hole_entry ia32 0 64 false sample_state 0)
      as (p & st' & Hret & _ & Hplain);
      [vm_compute; reflexivity | lia | vm_compute; reflexivity
      | vm_compute; reflexivity |].
    exists p, st'. split; [exact Hret |].
    destruct (Hplain (or_introl eq_refl)) as [_ Hcount].
    specialize (Hcount ltac:(vm_compute; discriminate)).
    change (nth (Z.to_nat 0) (storage (free_list (st_heap sample_state))) 0)
      with 0x181000 in Hcount.
    change (count_occ Z.eq_dec (storage (free_list (st_heap sample_state)))
              0x181000) with 1%nat in Hcount.
    lia.
Defined.


(** * [heap_create] *)

Section Creation.
Context {A : abi}.

(** A heap made by [heap_create] in a region that starts at a word, ends
    at or above [0x1000] and has room for the free-list storage has its
    only hole and its end at or above address [0x1000]. *)
Lemma heap_create_above_first_page start end_ max m st :
  0 <= start ->
  0 < sizeof_sorted_array + sizeof_pointer * HEAP_FREE_LIST_SIZE ->
  start + (sizeof_sorted_array + sizeof_pointer * HEAP_FREE_LIST_SIZE)
    + PAGE_SIZE < 2 ^ 32 ->
  PAGE_SIZE <= end_ < 2 ^ 32 ->
  heap_create start end_ max m = Ret st ->
  holes_above_first_page st.
Proof.
  intros Hs Hk Hfit Hend. unfold heap_create, add_hole, sorted_array_insert.
  cbn [st_heap st_mem free_list sorted_array_place max_size storage sa_size].
  set (k := sizeof_sorted_array + sizeof_pointer * HEAP_FREE_LIST_SIZE) in *.
  unfold PAGE_SIZE in Hfit.
  rewrite (wrap_small (start + k)) by lia.
  set (s' := if align (start + k) =? start + k then start + k
             else wrap (align (start + k) + PAGE_SIZE)).
  assert (Hs' : PAGE_SIZE <= s' < 2 ^ 32).
  { unfold s'. rewrite align_spec by lia.
    pose proof (Z.div_mod (start + k) PAGE_SIZE ltac:(unfold PAGE_SIZE; lia)) as Hdm.
    pose proof (Z.mod_pos_bound (start + k) PAGE_SIZE
                  ltac:(unfold PAGE_SIZE; lia)) as Hr.
    assert (0 <= (start + k) / PAGE_SIZE)
      by (apply Z.div_pos; unfold PAGE_SIZE; lia).
    unfold PAGE_SIZE in *.
    destruct (Z.eqb_spec (0x1000 * ((start + k) / 0x1000)) (start + k)).
    - lia.
    - rewrite wrap_small by lia. lia. }
  destruct (HEAP_FREE_LIST_SIZE <=? _); cbn [bind]; [discriminate |].
  intros H. inversion H; subst st. clear H.
  unfold holes_above_first_page.
  cbn [st_heap st_mem free_list storage end_address set_free_list insert_sorted].
  fold s'. clearbody s'. unfold PAGE_SIZE in Hs', Hend.
  split.
  - apply Forall_cons; [| apply Forall_nil].
    apply above_first_page_word; unfold PAGE_SIZE; lia.
  - apply above_first_page_word; unfold PAGE_SIZE; lia.
Qed.

End Creation.

(** * [kfree_heap] *)

Section Release.
Context {A : abi}.

(** A pointer whose header or footer lacks the magic takes one of the
    two early returns. *)
Lemma kfree_heap_rejects (p : Z) (st : state) :
  p <> 0 ->
  hdr_magic (st_mem st) (block_header p) <> HEAP_MAGIC \/
  ftr_magic (st_mem st) (block_footer (st_mem st) (block_header p)) <> HEAP_MAGIC ->
  kfree_heap p st = Ret st.
Proof.
  intros Hp Hbad. unfold kfree_heap.
  destruct (Z.eqb_spec p 0) as [| _]; [contradiction |].
  destruct (Z.eqb_spec (hdr_magic (st_mem st) (block_header p)) HEAP_MAGIC)
    as [Hh | Hh]; simpl; [| reflexivity].
  destruct (Z.eqb_spec
              (ftr_magic (st_mem st) (block_footer (st_mem st) (block_header p)))
              HEAP_MAGIC) as [Hf | Hf]; simpl; [| reflexivity].
  destruct Hbad; contradiction.
Qed.

(** C6, as amended.  For a non-null pointer whose derived header magic
    or footer magic differs from [HEAP_MAGIC], [kfree_heap] returns with
    the free list, the three addresses of the heap and the whole memory as
    they were; the return is the plain return of a [void] function. *)
Theorem kfree_heap_bad_magic (p : Z) (st : state) :
  p <> 0 ->
  hdr_magic (st_mem st) (block_header p) <> HEAP_MAGIC \/
  ftr_magic (st_mem st) (block_footer (st_mem st) (block_header p)) <> HEAP_MAGIC ->
  kfree_heap p st = Ret st.
Proof. exact (kfree_heap_rejects p st). Qed.

End Release.

Lemma kfree_heap_bad_magic_witness :
  @kfree_heap ia32 0x18100C sample_state = Ret sample_state.
Proof.
  apply (@kfree_heap_bad_magic ia32 0x18100C sample_state).
  - discriminate.
  - left. vm_compute. discriminate.
Defined.

Lemma corrupted_run_facts :
  match corrupted_run with
  | Ret (p, s) =>
      p = 0x18100C /\
      @hdr_magic ia32 (st_mem s) (@block_header ia32 p) = 0
  | _ => False
  end.
Proof. vm_compute. split; reflexivity. Qed.

(** C6 as stated fails in its first part: nothing is reported.  Freeing
    a block whose header magic has been overwritten is a plain return
    with the state as it was, exactly the outcome of freeing the null
    pointer, the no-op. *)
Lemma kfree_heap_bad_magic_silent :
  match corrupted_run with
  | Ret (p, s) =>
      p <> 0 /\
      @hdr_magic ia32 (st_mem s) (@block_header ia32 p) <> @HEAP_MAGIC ia32 /\
      @kfree_heap ia32 p s = Ret s /\
      @kfree_heap ia32 p s = @kfree_heap ia32 0 s
  | _ => False
  end.
Proof.
  pose proof corrupted_run_facts as F.
  destruct corrupted_run as [[p s] | |]; try contradiction.
  destruct F as [Hp Hm].
  assert (Hp0 : p <> 0) by (rewrite Hp; discriminate).
  assert (Hbad : @hdr_magic ia32 (st_mem s) (@block_header ia32 p)
                 <> @HEAP_MAGIC ia32) by (rewrite Hm; discriminate).
  repeat split; try assumption;
    rewrite (kfree_heap_rejects p s Hp0 (or_introl Hbad)); reflexivity.
Qed.

(** C7.  On the run [merge_run] the freed block at [0x181000] is valid
    and allocated, and the block that follows it, at [0x181054], is valid,
    free and in the free list.  After [kfree_heap] the size of the freed
    block is the sum of the two sizes and the entry of the right block is
    gone, but the footer at the end of the merged block still points to
    the header of the right block, not to the freed block's header, and
    the free list holds [0x1FFFFC], an address inside that footer. *)
Theorem kfree_heap_right_merge_footer :
  match merge_run with
  | Ret (p, s2, s3) =>
      let m2 := st_mem s2 in
      let m3 := st_mem s3 in
      let freed := @block_header ia32 p in
      let right := 0x181054 in
      (p = 0x18100C /\ freed = 0x181000 /\
       @hdr_magic ia32 m2 freed = @HEAP_MAGIC ia32 /\
       @hdr_allocated ia32 m2 freed = 1 /\
       @hdr_size ia32 m2 freed = 84 /\
       wrap (@block_footer ia32 m2 freed + @sizeof_footer ia32) = right /\
       @hdr_magic ia32 m2 right = @HEAP_MAGIC ia32 /\
       @hdr_allocated ia32 m2 right = 0 /\
       @hdr_size ia32 m2 right = 0x7F000 - 84 /\
       storage (free_list (st_heap s2)) = [right]) /\
      (@hdr_size ia32 m3 freed = 84 + (0x7F000 - 84) /\
       @block_footer ia32 m3 freed = 0x200000 - 8 /\
       @ftr_header ia32 m3 (@block_footer ia32 m3 freed) = right /\
       @ftr_header ia32 m3 (@block_footer ia32 m3 freed) <> freed /\
       storage (free_list (st_heap s3)) = [0x1FFFFC])
  | _ => False
  end.
Proof. vm_compute. repeat split; try reflexivity; discriminate. Qed.

(** * Runs that leave the specified behaviour *)

(** C2.  After the run [small_hole_run] the free list holds one hole of
    84 bytes, at [0x181000], whose payload needs 4084 bytes of padding to
    reach a page boundary.  For a page-aligned request of [0x114] bytes
    its effective size, 84 - 4084, is below the request, so the search
    of the specification finds no hole; [find_smallest_hole] computes the
    difference in [size_t], where it wraps around, and returns index 0. *)
Theorem find_smallest_hole_underflow :
  match small_hole_run with
  | Ret s =>
      storage (free_list (st_heap s)) = [0x181000] /\
      @effective_size ia32 (st_mem s) true 0x181000 = 84 - 4084 /\
      @effective_size ia32 (st_mem s) true 0x181000 < 0x114 /\
      @first_fit ia32 0x114 true s = -1 /\
      @hole_size ia32 (st_mem s) true 0x181000 = 0xFFFFF060 /\
      @find_smallest_hole ia32 0x114 true s = 0
  | _ => False
  end.
Proof. vm_compute. repeat split; reflexivity. Qed.

Lemma oversize_facts :
  match fresh_heap with
  | Ret s =>
      @find_smallest_hole ia32
        (wrap (wrap 0x80000 + @sizeof_header ia32 + @sizeof_footer ia32))
        false s = -1 /\
      fst (heap_resize
             (wrap (wrap (end_address (st_heap s) - start_address (st_heap s))
                    + wrap (wrap 0x80000 + @sizeof_header ia32
                            + @sizeof_footer ia32)))
             (st_heap s)) = 0 /\
      storage (free_list (st_heap s)) = [0x181000]
  | _ => False
  end.
Proof. vm_compute. repeat split; reflexivity. Qed.

(** C4.  On a fresh heap an allocation of [0x80000] bytes finds no hole
    and [heap_resize] succeeds, but the call does not return: with the
    old hole still in the free list the loop that looks for the last
    header never advances, so the call is still running whatever fuel it
    is given. *)
Theorem kalloc_heap_growth_diverges (fuel : nat) : oversize_run fuel = OutOfFuel.
Proof.
  unfold oversize_run. pose proof oversize_facts as F.
  destruct fresh_heap as [s | |]; try contradiction.
  destruct F as (Hfind & Hres & Hfl). cbn [bind].
  apply kalloc_heap_spins; [exact Hfind | rewrite Hres; discriminate |].
  rewrite Hfl. discriminate.
Qed.

Lemma tiles_inv {A : abi} m e a :
  tiles m e a ->
  a = e \/
  (hdr_magic m a = HEAP_MAGIC /\ 0 < hdr_size m a /\ tiles m e (a + hdr_size m a)).
Proof. intros H. destruct H; [left; reflexivity | right; auto]. Qed.

Lemma growth_facts :
  match growth_run with
  | Ret (s1, s2, s3) =>
      (start_address (st_heap s1) = 0x181000 /\
       end_address (st_heap s1) = 0x200000 /\
       @hdr_magic ia32 (st_mem s1) 0x181000 = @HEAP_MAGIC ia32 /\
       @hdr_size ia32 (st_mem s1) 0x181000 = 0x7F000) /\
      (start_address (st_heap s2) = 0x181000 /\
       end_address (st_heap s2) = 0x200000 /\
       @hdr_magic ia32 (st_mem s2) 0x181000 = @HEAP_MAGIC ia32 /\
       @hdr_size ia32 (st_mem s2) 0x181000 = 0x7F000) /\
      (start_address (st_heap s3) = 0x181000 /\
       end_address (st_heap s3) = 0x201000 /\
       max_address (st_heap s3) = 0x400000 /\
       @hdr_size ia32 (st_mem s3) 0x181000 = 0x7F000 /\
       @hdr_size ia32 (st_mem s3) 0x200000 = 36 /\
       @hdr_size ia32 (st_mem s3) 0x200024 = 0xFD4 /\
       @hdr_magic ia32 (st_mem s3) 0x200FF8 = 0)
  | _ => False
  end.
Proof. vm_compute. repeat split; reflexivity. Qed.

(** C1.  On the run [growth_run] the blocks partition the heap after
    [heap_create] and after the first allocation, which takes the whole
    hole.  The second allocation grows the heap within [max_address];
    the hole it adds stops [sizeof(struct footer)] bytes before the new
    [end_address], and after it the blocks no longer partition the heap:
    the last block ends at [0x200FF8], where no header follows, and
    [end_address] is [0x201000]. *)
Theorem growth_breaks_partition :
  match growth_run with
  | Ret (s1, s2, s3) =>
      @blocks_partition ia32 s1 /\
      @blocks_partition ia32 s2 /\
      end_address (st_heap s3) <= max_address (st_heap s3) /\
      ~ @blocks_partition ia32 s3
  | _ => False
  end.
Proof.
  pose proof growth_facts as F.
  destruct growth_run as [[[s1 s2] s3] | |]; try contradiction.
  destruct F as ((Hs1 & He1 & Hm1 & Hz1) & (Hs2 & He2 & Hm2 & Hz2)
                 & (Hs3 & He3 & Hx3 & Ha & Hb & Hc & Hd)).
  unfold blocks_partition.
  repeat split.
  - rewrite Hs1, He1. apply tiles_block; [assumption | rewrite Hz1; lia |].
    rewrite Hz1. apply tiles_done.
  - rewrite Hs2, He2. apply tiles_block; [assumption | rewrite Hz2; lia |].
    rewrite Hz2. apply tiles_done.
  - rewrite He3, Hx3. lia.
  - rewrite Hs3, He3. intros T.
    apply tiles_inv in T. destruct T as [T | (_ & _ & T)]; [discriminate |].
    rewrite Ha in T. change (0x181000 + 0x7F000) with 0x200000 in T.
    apply tiles_inv in T. destruct T as [T | (_ & _ & T)]; [discriminate |].
    rewrite Hb in T. change (0x200000 + 36) with 0x200024 in T.
    apply tiles_inv in T. destruct T as [T | (_ & _ & T)]; [discriminate |].
    rewrite Hc in T. change (0x200024 + 0xFD4) with 0x200FF8 in T.
    apply tiles_inv in T. destruct T as [T | (Hmagic & _)]; [discriminate |].
    rewrite Hd in Hmagic. discriminate.
Qed.

(** * Further properties *)

(** ** Bytes that a store leaves alone *)

(** [unchanged_outside lo hi m m']: the two memories hold the same bytes
    at every address outside [lo, hi). *)

Lemma unchanged_refl lo hi m : unchanged_outside lo hi m m.
Proof. intros b _. reflexivity. Qed.

Lemma unchanged_trans lo hi m1 m2 m3 :
  unchanged_outside lo hi m1 m2 -> unchanged_outside lo hi m2 m3 ->
  unchanged_outside lo hi m1 m3.
Proof. intros H1 H2 b Hb. rewrite H2, H1 by assumption. reflexivity. Qed.

Lemma unchanged_weaken lo hi lo' hi' m m' :
  lo' <= lo -> hi <= hi' ->
  unchanged_outside lo hi m m' -> unchanged_outside lo' hi' m m'.
Proof. intros Hl Hh H b Hb. apply H. lia. Qed.

Lemma unchanged_store8 lo hi m a v :
  lo <= a -> a < hi -> 0 <= a < 2 ^ 32 ->
  unchanged_outside lo hi m (store8 m a v).
Proof.
  intros Hl Hh Ha b Hb. unfold store8. rewrite (wrap_small a) by assumption.
  destruct (Z.eqb_spec b a); [lia | reflexivity].
Qed.

Lemma unchanged_store32 lo hi m a v :
  lo <= a -> a + 4 <= hi -> 0 <= a -> a + 4 <= 2 ^ 32 ->
  unchanged_outside lo hi m (store32 m a v).
Proof.
  intros Hl Hh Ha Hfit b Hb. unfold store32, store8.
  rewrite (wrap_small a), (wrap_small (a + 1)), (wrap_small (a + 2)),
    (wrap_small (a + 3)) by lia.
  destruct (Z.eqb_spec b (a + 3)); [lia |].
  destruct (Z.eqb_spec b (a + 2)); [lia |].
  destruct (Z.eqb_spec b (a + 1)); [lia |].
  destruct (Z.eqb_spec b a); [lia | reflexivity].
Qed.

Lemma load8_unchanged lo hi m m' x :
  unchanged_outside lo hi m m' -> 0 <= x < 2 ^ 32 -> x < lo \/ hi <= x ->
  load8 m' x = load8 m x.
Proof.
  intros H Hx Hout. unfold load8. rewrite (wrap_small x) by assumption.
  rewrite H by assumption. reflexivity.
Qed.

Lemma load32_unchanged lo hi m m' x :
  unchanged_outside lo hi m m' -> 0 <= x -> x + 4 <= 2 ^ 32 ->
  x + 4 <= lo \/ hi <= x ->
  load32 m' x = load32 m x.
Proof.
  intros H Hx Hfit Hout. unfold load32.
  rewrite !(load8_unchanged lo hi m m') by (assumption || lia). reflexivity.
Qed.

(** [align] on a word: a multiple of the page size, at most a page below. *)
Lemma align_facts p :
  0 <= p < 2 ^ 32 ->
  align p mod PAGE_SIZE = 0 /\ 0 <= align p <= p /\ p < align p + PAGE_SIZE /\
  (align p = p <-> p mod PAGE_SIZE = 0).
Proof.
  intros Hp. rewrite align_spec by assumption.
  pose proof (Z.div_mod p PAGE_SIZE ltac:(unfold PAGE_SIZE; lia)) as Hdm.
  pose proof (Z.mod_pos_bound p PAGE_SIZE ltac:(unfold PAGE_SIZE; lia)) as Hr.
  assert (Hq : 0 <= p / PAGE_SIZE) by (apply Z.div_pos; unfold PAGE_SIZE; lia).
  split; [rewrite Z.mul_comm; apply Z.mod_mul; unfold PAGE_SIZE; lia |].
  unfold PAGE_SIZE in *. repeat split; lia.
Qed.

Section FieldFacts.
Context {A : abi}.
Hypothesis abi_wf : abi_ok A.

(** Header and footer fields outside a changed range. *)
Lemma header_unchanged lo hi m m' c :
  unchanged_outside lo hi m m' -> 0 <= c -> c + sizeof_header <= 2 ^ 32 ->
  c + sizeof_header <= lo \/ hi <= c ->
  hdr_magic m' c = hdr_magic m c /\
  hdr_size m' c = hdr_size m c /\
  hdr_allocated m' c = hdr_allocated m c.
Proof.
  intros H Hc Hfit Hout. destruct abi_wf.
  unfold hdr_magic, hdr_size, hdr_allocated. repeat split.
  - apply (load32_unchanged lo hi); (assumption || lia).
  - apply (load32_unchanged lo hi); (assumption || lia).
  - apply (load8_unchanged lo hi); (assumption || lia).
Qed.

Lemma footer_unchanged lo hi m m' f :
  unchanged_outside lo hi m m' -> 0 <= f -> f + sizeof_footer <= 2 ^ 32 ->
  f + sizeof_footer <= lo \/ hi <= f ->
  ftr_magic m' f = ftr_magic m f /\ ftr_header m' f = ftr_header m f.
Proof.
  intros H Hf Hfit Hout. destruct abi_wf.
  unfold ftr_magic, ftr_header. split;
    apply (load32_unchanged lo hi); (assumption || lia).
Qed.

(** The stores of the setters stay inside the structure. *)
Lemma set_hdr_magic_inside m c v :
  0 <= c -> c + sizeof_header <= 2 ^ 32 ->
  unchanged_outside c (c + sizeof_header) m (set_hdr_magic m c v).
Proof. intros. destruct abi_wf. apply unchanged_store32; lia. Qed.

Lemma set_hdr_size_inside m c v :
  0 <= c -> c + sizeof_header <= 2 ^ 32 ->
  unchanged_outside c (c + sizeof_header) m (set_hdr_size m c v).
Proof. intros. destruct abi_wf. apply unchanged_store32; lia. Qed.

Lemma set_hdr_allocated_inside m c v :
  0 <= c -> c + sizeof_header <= 2 ^ 32 ->
  unchanged_outside c (c + sizeof_header) m (set_hdr_allocated m c v).
Proof. intros. destruct abi_wf. apply unchanged_store8; lia. Qed.

Lemma set_ftr_magic_inside m f v :
  0 <= f -> f + sizeof_footer <= 2 ^ 32 ->
  unchanged_outside f (f + sizeof_footer) m (set_ftr_magic m f v).
Proof. intros. destruct abi_wf. apply unchanged_store32; lia. Qed.

Lemma set_ftr_header_inside m f v :
  0 <= f -> f + sizeof_footer <= 2 ^ 32 ->
  unchanged_outside f (f + sizeof_footer) m (set_ftr_header m f v).
Proof. intros. destruct abi_wf. apply unchanged_store32; lia. Qed.

(** Reading a field after a store to a field of the same structure. *)
Lemma hdr_magic_set_magic m c v : hdr_magic (set_hdr_magic m c v) c = wrap v.
Proof. apply load32_store32_same. Qed.

Lemma hdr_size_set_size m c v : hdr_size (set_hdr_size m c v) c = wrap v.
Proof. apply load32_store32_same. Qed.

Lemma hdr_allocated_set_allocated m c v :
  hdr_allocated (set_hdr_allocated m c v) c = v mod 256.
Proof. apply load8_store8_same. Qed.

Lemma hdr_magic_set_size m c v : hdr_magic (set_hdr_size m c v) c = hdr_magic m c.
Proof. destruct abi_wf. apply load32_store32_other, apart_fields; lia. Qed.

Lemma hdr_magic_set_allocated m c v :
  hdr_magic (set_hdr_allocated m c v) c = hdr_magic m c.
Proof. destruct abi_wf. apply load32_store8_other, apart_fields; lia. Qed.


Lemma hdr_size_set_allocated m c v :
  hdr_size (set_hdr_allocated m c v) c = hdr_size m c.
Proof. destruct abi_wf. apply load32_store8_other, apart_fields; lia. Qed.

Lemma hdr_allocated_set_magic m c v :
  hdr_allocated (set_hdr_magic m c v) c = hdr_allocated m c.
Proof. destruct abi_wf. apply load8_store32_other, apart_fields; lia. Qed.

Lemma hdr_allocated_set_size m c v :
  hdr_allocated (set_hdr_size m c v) c = hdr_allocated m c.
Proof. destruct abi_wf. apply load8_store32_other, apart_fields; lia. Qed.

Lemma ftr_magic_set_magic m f v : ftr_magic (set_ftr_magic m f v) f = wrap v.
Proof. apply load32_store32_same. Qed.

Lemma ftr_header_set_header m f v : ftr_header (set_ftr_header m f v) f = wrap v.
Proof. apply load32_store32_same. Qed.

Lemma ftr_magic_set_header m f v :
  ftr_magic (set_ftr_header m f v) f = ftr_magic m f.
Proof. destruct abi_wf. apply load32_store32_other, apart_fields; lia. Qed.

Lemma ftr_header_set_magic m f v :
  ftr_header (set_ftr_magic m f v) f = ftr_header m f.
Proof. destruct abi_wf. apply load32_store32_other, apart_fields; lia. Qed.

End FieldFacts.

(** ** [align] and [heap_resize] *)

(** ** [align] and [heap_resize] *)

(** X1.  [align] rounds an address down to a page boundary: for every
    32-bit address the result is a multiple of [PAGE_SIZE], it is the
    largest one that is not above the address, aligning twice is aligning
    once, and an address is left as it is exactly when it is on a page
    boundary. *)
Theorem align_floor (p : Z) :
  0 <= p < 2 ^ 32 ->
  align p mod PAGE_SIZE = 0 /\
  align p <= p < align p + PAGE_SIZE /\
  align (align p) = align p /\
  (align p = p <-> p mod PAGE_SIZE = 0).
Proof.
  intros Hp. destruct (align_facts p Hp) as (Hal & Hle & Hlt & Hiff).
  split; [exact Hal |]. split; [lia |]. split; [| exact Hiff].
  apply (align_facts (align p)); [lia | exact Hal].
Qed.

Lemma align_floor_witness :
  align 0x181234 = 0x181000 /\ align 0x181234 mod PAGE_SIZE = 0.
Proof.
  split; [reflexivity |].
  apply (align_floor 0x181234). lia.
Defined.

Lemma land_bit12 x : Z.land x 0x1000 = 0 \/ Z.land x 0x1000 = 0x1000.
Proof.
  destruct (Z.testbit x 12) eqn:Hb; [right | left];
    apply Z.bits_inj'; intros i Hi; rewrite Z.land_spec;
    change 0x1000 with (2 ^ 12); rewrite Z.pow2_bits_eqb by lia.
  - destruct (Z.eqb_spec 12 i) as [<- | Hne];
      [rewrite Hb; reflexivity | apply andb_false_r].
  - rewrite Z.bits_0.
    destruct (Z.eqb_spec 12 i) as [<- | Hne];
      [rewrite Hb; reflexivity | apply andb_false_r].
Qed.

Lemma page_round_aligned x :
  0 <= x < 2 ^ 32 -> 0 <= page_round x < 2 ^ 32 /\ page_round x mod PAGE_SIZE = 0.
Proof.
  intros Hx. unfold page_round.
  destruct (Z.eqb_spec (align x) x) as [He | Hne].
  - split; [assumption |].
    rewrite <- He. apply (align_facts x Hx).
  - split; [apply wrap_range |].
    rewrite wrap_mod_page, <- Z.add_mod_idemp_l by (unfold PAGE_SIZE; lia).
    rewrite (proj1 (align_facts x Hx)). reflexivity.
Qed.

Lemma heap_length_set_end h ns :
  0 <= ns < 2 ^ 32 ->
  heap_length (set_end_address h (wrap (start_address h + ns))) = ns.
Proof.
  intros Hns. unfold heap_length, set_end_address, wrap. cbn.
  rewrite Zminus_mod_idemp_l.
  replace (start_address h + ns - start_address h) with ns by lia.
  apply Z.mod_small. lia.
Qed.

(** X2.  The return code of [heap_resize] is 0 or -1 for every size and
    every heap, and a call that returns -1 leaves the heap as it was. *)
Theorem heap_resize_outcome (n : Z) (h : heap) :
  (fst (heap_resize n h) = 0 \/ fst (heap_resize n h) = -1) /\
  (fst (heap_resize n h) = -1 -> snd (heap_resize n h) = h).
Proof.
  unfold heap_resize.
  case_ifs; cbn; repeat split; auto; intros; discriminate.
Qed.

(** X3.  After a call of [heap_resize] that returns 0, the length of the
    heap, [end_address - start_address] in 32-bit arithmetic, is a
    multiple of [PAGE_SIZE]. *)
Theorem heap_resize_page_multiple (n : Z) (h : heap) :
  fst (heap_resize n h) = 0 ->
  heap_length (snd (heap_resize n h)) mod PAGE_SIZE = 0.
Proof.
  unfold heap_resize. fold (page_round (wrap n)).
  destruct (page_round_aligned (wrap n) (wrap_range n)) as [Hrange Hal].
  set (ns := page_round (wrap n)) in *.
  assert (H2 : wrap (0x1000 + 0x1000) mod PAGE_SIZE = 0) by reflexivity.
  assert (Hmask : wrap (Z.land ns 0xFFFFF000 + 0x1000) mod PAGE_SIZE = 0).
  { fold PAGE_MASK. fold (align ns).
    rewrite wrap_mod_page, <- Z.add_mod_idemp_l by (unfold PAGE_SIZE; lia).
    rewrite (proj1 (align_facts ns Hrange)). reflexivity. }
  destruct (ns <? _).
  - intros _. cbn [snd].
    destruct (land_bit12 ns) as [Hb | Hb]; rewrite Hb; cbn [Z.eqb].
    + rewrite heap_length_set_end; assumption.
    + rewrite heap_length_set_end; [exact H2 | apply wrap_range].
  - destruct (ns >? _).
    + destruct (Z.land ns _ =? 0).
      * destruct (_ >? max_address h); cbn [fst snd]; [discriminate |].
        intros _. rewrite heap_length_set_end; assumption.
      * destruct (_ >? max_address h); cbn [fst snd]; [discriminate |].
        intros _. rewrite heap_length_set_end; [exact Hmask | apply wrap_range].
    + intros _. cbn [snd]. rewrite heap_length_set_end; assumption.
Qed.

Lemma heap_resize_page_multiple_witness :
  heap_length (snd (heap_resize 0x7F001 sample_heap)) mod PAGE_SIZE = 0.
Proof. apply (heap_resize_page_multiple 0x7F001 sample_heap). reflexivity. Defined.

Lemma set_end_address_same h : set_end_address h (end_address h) = h.
Proof. destruct h. reflexivity. Qed.

(** X4.  A request whose size, rounded up to a page boundary, is the
    current length of the heap changes nothing: [heap_resize] returns 0
    and the heap is the same. *)
Theorem heap_resize_same_size (h : heap) (n : Z) :
  heap_wf h ->
  0 <= n ->
  round_up_page n = heap_length h ->
  heap_resize n h = (0, h).
Proof.
  intros Hwf Hn Heq.
  pose proof (round_up_page_ge n) as Hge.
  pose proof (heap_length_wf h Hwf) as Hlen.
  destruct Hwf as [Hs He Hm].
  unfold heap_resize. rewrite (wrap_small n) by lia.
  fold (page_round n). rewrite page_round_spec by lia.
  fold (heap_length h). rewrite Heq.
  rewrite Z.ltb_irrefl.
  replace (heap_length h >? heap_length h) with false
    by (rewrite Z.gtb_ltb, Z.ltb_irrefl; reflexivity).
  rewrite Hlen.
  replace (start_address h + (end_address h - start_address h))
    with (end_address h) by lia.
  rewrite wrap_small by lia. rewrite set_end_address_same. reflexivity.
Qed.

Lemma heap_resize_same_size_witness :
  heap_resize 0x7E801 sample_heap = (0, sample_heap).
Proof.
  apply (heap_resize_same_size sample_heap 0x7E801 sample_heap_wf);
    [lia | reflexivity].
Defined.

(** X5.  Shrinking to a size whose rounded value has bit 12 set: the
    shrinking branch replaces the size by [(size & 0x1000) + 0x1000], so
    [heap_resize] returns 0 and leaves a heap of two pages,
    [end_address = start_address + 0x2000], whatever the size was. *)
Theorem heap_resize_shrink_two_pages (h : heap) (n : Z) :
  heap_wf h ->
  0 <= n ->
  round_up_page n < heap_length h ->
  Z.land (round_up_page n) 0x1000 <> 0 ->
  heap_resize n h = (0, set_end_address h (wrap (start_address h + 0x2000))).
Proof.
  intros Hwf Hn Hlt Hbit.
  pose proof (round_up_page_ge n) as Hge.
  pose proof (heap_length_wf h Hwf) as Hlen.
  destruct Hwf as [Hs He Hm].
  unfold heap_resize. rewrite (wrap_small n) by lia.
  fold (page_round n). rewrite page_round_spec by lia.
  fold (heap_length h).
  replace (round_up_page n <? heap_length h) with true
    by (symmetry; apply Z.ltb_lt; lia).
  destruct (land_bit12 (round_up_page n)) as [Hb | Hb]; [contradiction |].
  rewrite Hb. reflexivity.
Qed.

Lemma heap_resize_shrink_two_pages_witness :
  heap_resize 0x7000 sample_heap = (0, set_end_address sample_heap 0x183000).
Proof.
  apply (heap_resize_shrink_two_pages sample_heap 0x7000 sample_heap_wf);
    [lia | vm_compute; reflexivity | vm_compute; discriminate].
Defined.

(** ** The search *)

Section SearchMore.
Context {A : abi}.

Lemma find_from_none m size pa l i :
  0 <= i -> find_from m size pa l i = -1 ->
  Forall (fun loc => hole_size m pa loc < size) l.
Proof.
  revert i. induction l as [| h r IH]; intros i Hi; simpl; [constructor |].
  destruct (Z.geb_spec (hole_size m pa h) size) as [Hge | Hlt]; [lia |].
  intros H. constructor; [assumption | eapply IH; [| exact H]; lia].
Qed.

Lemma find_from_earlier m size pa l i j :
  0 <= i -> find_from m size pa l i <> -1 ->
  (j < Z.to_nat (find_from m size pa l i - i))%nat ->
  hole_size m pa (nth j l 0) < size.
Proof.
  revert i j. induction l as [| h r IH]; intros i j Hi; simpl; [congruence |].
  destruct (Z.geb_spec (hole_size m pa h) size) as [Hge | Hlt].
  - intros _ Hj. rewrite Z.sub_diag in Hj. simpl in Hj. lia.
  - intros Hne Hj.
    destruct j as [| j]; [assumption |].
    apply (IH (i + 1)); [lia | assumption |].
    destruct (find_from_bounds m size pa r (i + 1) ltac:(lia)) as [Hb | Hb];
      [congruence | lia].
Qed.

(** The result of the search, for either kind of request. *)
Lemma find_smallest_hole_cases size pa st :
  let m := st_mem st in
  let l := storage (free_list (st_heap st)) in
  let idx := find_smallest_hole size pa st in
  (idx = -1 /\ Forall (fun loc => hole_size m pa loc < size) l) \/
  (0 <= idx < sa_size (free_list (st_heap st)) /\
   hole_size m pa (nth (Z.to_nat idx) l 0) >= size /\
   forall j, (j < Z.to_nat idx)%nat -> hole_size m pa (nth j l 0) < size).
Proof.
  intros m l idx. unfold find_smallest_hole in idx. fold m l in idx.
  destruct (find_from_bounds m size pa l 0 ltac:(lia)) as [Hb | Hb].
  - left. split; [assumption |]. eapply find_from_none; [| exact Hb]. lia.
  - right. fold idx in Hb.
    assert (Hne : find_from m size pa l 0 <> -1) by (fold idx; lia).
    split; [unfold sa_size; fold l; lia |]. split.
    + pose proof (find_from_hit m size pa l 0 ltac:(lia) Hne) as Hhit.
      rewrite Z.sub_0_r in Hhit. exact Hhit.
    + intros j Hj.
      apply (find_from_earlier m size pa l 0 j ltac:(lia) Hne).
      rewrite Z.sub_0_r. exact Hj.
Qed.

Lemma hole_size_unaligned m loc : hole_size m false loc = hdr_size m loc.
Proof.
  unfold hole_size, hole_offset. rewrite Z.sub_0_r.
  apply wrap_small. apply load32_range.
Qed.

(** X6.  Without page alignment [find_smallest_hole] is a first fit in
    the order of the free list: it returns -1 exactly when every hole is
    smaller than the request, and otherwise the index of an entry whose
    hole is at least as large as the request while every entry before it
    is smaller.  It does not look for the smallest such hole. *)
Theorem find_smallest_hole_first_fit (size : Z) (st : state) :
  let m := st_mem st in
  let l := storage (free_list (st_heap st)) in
  let idx := find_smallest_hole size false st in
  (idx = -1 /\ Forall (fun loc => hdr_size m loc < size) l) \/
  (0 <= idx < sa_size (free_list (st_heap st)) /\
   size <= hdr_size m (nth (Z.to_nat idx) l 0) /\
   forall j, (j < Z.to_nat idx)%nat -> hdr_size m (nth j l 0) < size).
Proof.
  intros m l idx.
  destruct (find_smallest_hole_cases size false st) as [[Hn Hall] | (Hr & Hh & He)].
  - left. split; [assumption |].
    eapply Forall_impl; [| exact Hall].
    intros loc. cbv beta. rewrite hole_size_unaligned. tauto.
  - right. split; [assumption |]. fold m l idx in Hh, He.
    rewrite hole_size_unaligned in Hh. split; [lia |].
    intros j Hj. rewrite <- hole_size_unaligned. apply He. exact Hj.
Qed.

(** X7.  The hole that a page-aligned search returns.  The search
    charges the hole at [loc] a padding of [PAGE_SIZE] minus the offset of
    its payload in its page: between 1 and [PAGE_SIZE] bytes, a whole page
    when the payload is on a page boundary already, and such that the
    payload moved by the padding is on a page boundary.  When the returned
    hole is at least as large as its padding, it has room for the padding
    and the request; and every earlier hole that is at least as large as
    its padding is too small for its padding and the request. *)
Theorem find_smallest_hole_aligned_fit (size : Z) (st : state) (idx : Z) :
  let m := st_mem st in
  let l := storage (free_list (st_heap st)) in
  let loc := nth (Z.to_nat idx) l 0 in
  find_smallest_hole size true st = idx -> 0 <= idx ->
  page_padding loc <= hdr_size m loc ->
  0 < page_padding loc <= PAGE_SIZE /\
  (loc + sizeof_header + page_padding loc) mod PAGE_SIZE = 0 /\
  page_padding loc + size <= hdr_size m loc /\
  forall j, (j < Z.to_nat idx)%nat ->
    page_padding (nth j l 0) <= hdr_size m (nth j l 0) ->
    hdr_size m (nth j l 0) < page_padding (nth j l 0) + size.
Proof.
  intros m l loc Hfind Hidx Hpad.
  assert (Hoff : forall a, hole_offset true a = page_padding a).
  { intros a. unfold hole_offset, page_padding. rewrite wrap_mod_page.
    reflexivity. }
  assert (Hsz : forall a, page_padding a <= hdr_size m a ->
                          hole_size m true a = hdr_size m a - page_padding a).
  { intros a Ha. unfold hole_size. rewrite Hoff. apply wrap_small.
    pose proof (load32_range m (a + off_size)) as Hr. fold (hdr_size m a) in Hr.
    unfold page_padding, PAGE_SIZE in *.
    pose proof (Z.mod_pos_bound (a + sizeof_header) 0x1000 ltac:(lia)). lia. }
  assert (Hrange : forall a, 0 < page_padding a <= PAGE_SIZE).
  { intros a. unfold page_padding, PAGE_SIZE.
    pose proof (Z.mod_pos_bound (a + sizeof_header) 0x1000 ltac:(lia)). lia. }
  destruct (find_smallest_hole_cases size true st) as [[Hn _] | (Hr & Hh & He)];
    [lia |].
  rewrite Hfind in Hr, Hh, He. fold m l loc in Hh, He.
  split; [apply Hrange |]. split; [| split].
  - unfold page_padding, PAGE_SIZE.
    pose proof (Z.div_mod (loc + sizeof_header) 0x1000 ltac:(lia)) as Hd.
    replace (loc + sizeof_header + (0x1000 - (loc + sizeof_header) mod 0x1000))
      with (0 + ((loc + sizeof_header) / 0x1000 + 1) * 0x1000) by lia.
    rewrite Z.mod_add by lia. reflexivity.
  - rewrite (Hsz loc Hpad) in Hh. lia.
  - intros j Hj Hpj. specialize (He j Hj). rewrite (Hsz _ Hpj) in He. lia.
Qed.

End SearchMore.

Lemma find_smallest_hole_aligned_fit_witness :
  @page_padding ia32 0x181000 = 0xFF4 /\
  0xFF4 + 84 <= @hdr_size ia32 (st_mem sample_state) 0x181000.
Proof.
  split; [reflexivity |].
  exact (proj1 (proj2 (proj2
           (@find_smallest_hole_aligned_fit ia32 84 sample_state 0
              ltac:(vm_compute; reflexivity) ltac:(lia)
              ltac:(vm_compute; discriminate))))).
Defined.

(** ** [add_hole] and [heap_create] *)

Lemma insert_sorted_In lt x l : In x (insert_sorted lt x l).
Proof.
  induction l as [| y r IH]; simpl; [left; reflexivity |].
  destruct (lt y x); simpl; auto.
Qed.

Lemma insert_sorted_length lt x l :
  length (insert_sorted lt x l) = S (length l).
Proof.
  induction l as [| y r IH]; simpl; [reflexivity |].
  destruct (lt y x); simpl; [rewrite IH |]; reflexivity.
Qed.

Section HoleFacts.
Context {A : abi}.
Hypothesis abi_wf : abi_ok A.

(** What [add_hole] writes, and where. *)
Lemma add_hole_effect (start end_ : Z) (st : state) :
  0 <= start ->
  start + sizeof_header + sizeof_pointer * sizeof_footer <= end_ ->
  end_ < 2 ^ 32 ->
  sa_size (free_list (st_heap st)) < max_size (free_list (st_heap st)) ->
  exists st',
    add_hole start end_ st = Ret st' /\
    hdr_magic (st_mem st') start = HEAP_MAGIC /\
    hdr_size (st_mem st') start = end_ - start /\
    hdr_allocated (st_mem st') start = 0 /\
    ftr_magic (st_mem st') (end_ - sizeof_pointer * sizeof_footer) = HEAP_MAGIC /\
    ftr_header (st_mem st') (end_ - sizeof_pointer * sizeof_footer) = start /\
    unchanged_outside start end_ (st_mem st) (st_mem st') /\
    storage (free_list (st_heap st')) =
      insert_sorted (header_less_than (st_mem st')) start
        (storage (free_list (st_heap st))) /\
    start_address (st_heap st') = start_address (st_heap st) /\
    end_address (st_heap st') = end_address (st_heap st) /\
    max_address (st_heap st') = max_address (st_heap st).
Proof.
  intros Hs Hroom Hend Hcap. pose proof abi_wf as Habi. destruct Habi.
  unfold add_hole, sorted_array_insert.
  unfold sizeof_pointer in *.
  replace (max_size (free_list (st_heap st)) <=? sa_size (free_list (st_heap st)))
    with false by (symmetry; apply Z.leb_gt; lia).
  cbn [bind]. eexists. split; [reflexivity |]. cbn [st_mem st_heap].
  rewrite (wrap_small (end_ - 4 * sizeof_footer)) by lia.
  rewrite (wrap_small (end_ - start)) by lia.
  set (f := end_ - 4 * sizeof_footer).
  set (m3 := set_hdr_allocated
               (set_hdr_size (set_hdr_magic (st_mem st) start HEAP_MAGIC)
                             start (end_ - start)) start 0).
  set (m5 := set_ftr_header (set_ftr_magic m3 f HEAP_MAGIC) f start).
  assert (H35 : unchanged_outside f (f + sizeof_footer) m3 m5).
  { unfold m5. eapply unchanged_trans;
      [apply (set_ftr_magic_inside abi_wf) | apply (set_ftr_header_inside abi_wf)];
      unfold f; lia. }
  assert (H03 : unchanged_outside start (start + sizeof_header) (st_mem st) m3).
  { unfold m3. eapply unchanged_trans;
      [eapply unchanged_trans;
       [apply (set_hdr_magic_inside abi_wf) | apply (set_hdr_size_inside abi_wf)]
      | apply (set_hdr_allocated_inside abi_wf)]; lia. }
  destruct (header_unchanged abi_wf _ _ _ _ start H35) as (Hm & Hz & Ha);
    [lia | lia | unfold f; lia |].
  rewrite Hm, Hz, Ha. unfold m3.
  rewrite (hdr_magic_set_allocated abi_wf), (hdr_magic_set_size abi_wf),
    hdr_magic_set_magic.
  rewrite (hdr_size_set_allocated abi_wf), hdr_size_set_size.
  rewrite hdr_allocated_set_allocated.
  unfold m5. rewrite (ftr_magic_set_header abi_wf), ftr_magic_set_magic,
    ftr_header_set_header.
  rewrite !wrap_small by lia.
  repeat split; try reflexivity.
  eapply unchanged_trans.
  - eapply unchanged_weaken; [| | exact H03]; lia.
  - eapply unchanged_weaken; [| | exact H35]; unfold f; lia.
Qed.

(** X8.  [add_hole(start, end)], on a range with room for a header and
    four footers and a free list that is not full.  The header at [start]
    gets the magic, the size [end - start] and the flag 0; the footer is
    written at [end] minus [sizeof(f)] footers, where [f] is a pointer,
    that is [4 * sizeof(struct footer)] bytes before [end] and not at the
    end of the hole; it gets the magic and points back to [start].  These
    stores change no byte outside [start, end), and the header is inserted
    into the free list, which so has one entry more and holds [start]. *)
Theorem add_hole_writes (start end_ : Z) (st : state) :
  0 <= start ->
  start + sizeof_header + sizeof_pointer * sizeof_footer <= end_ ->
  end_ < 2 ^ 32 ->
  sa_size (free_list (st_heap st)) < max_size (free_list (st_heap st)) ->
  exists st',
    add_hole start end_ st = Ret st' /\
    hdr_magic (st_mem st') start = HEAP_MAGIC /\
    hdr_size (st_mem st') start = end_ - start /\
    hdr_allocated (st_mem st') start = 0 /\
    ftr_magic (st_mem st') (end_ - sizeof_pointer * sizeof_footer) = HEAP_MAGIC /\
    ftr_header (st_mem st') (end_ - sizeof_pointer * sizeof_footer) = start /\
    unchanged_outside start end_ (st_mem st) (st_mem st') /\
    storage (free_list (st_heap st')) =
      insert_sorted (header_less_than (st_mem st')) start
        (storage (free_list (st_heap st))) /\
    In start (storage (free_list (st_heap st'))) /\
    sa_size (free_list (st_heap st')) = sa_size (free_list (st_heap st)) + 1.
Proof.
  intros Hs Hroom Hend Hcap.
  destruct (add_hole_effect start end_ st Hs Hroom Hend Hcap)
    as (st' & Hret & Hm & Hz & Ha & Hfm & Hfh & Hout & Hfl & _).
  exists st'. repeat (split; [assumption |]).
  unfold sa_size. rewrite Hfl. split.
  - apply insert_sorted_In.
  - rewrite insert_sorted_length. lia.
Qed.

(** X9.  [heap_create(start, end, max)] with room for the free list, a
    page and a hole below [end].  [start_address] is the first page
    boundary at or after the end of the free list's array, which is put at
    [start]; [end_address] and [max_address] are the arguments; the free
    list has the capacity [HEAP_FREE_LIST_SIZE] and one entry, the hole
    at [start_address], which has the magic, is free and spans the heap up
    to [end_address]; the blocks of the new heap follow one another from
    [start_address] to [end_address]. *)
Theorem heap_create_postcondition (start end_ max : Z) (m : mem) :
  0 <= start ->
  0 <= sizeof_sorted_array ->
  0 < HEAP_FREE_LIST_SIZE ->
  let data := start + (sizeof_sorted_array + sizeof_pointer * HEAP_FREE_LIST_SIZE) in
  data + PAGE_SIZE + sizeof_header + sizeof_pointer * sizeof_footer <= end_ ->
  end_ < 2 ^ 32 ->
  exists st,
    heap_create start end_ max m = Ret st /\
    data <= start_address (st_heap st) < data + PAGE_SIZE /\
    start_address (st_heap st) mod PAGE_SIZE = 0 /\
    end_address (st_heap st) = end_ /\
    max_address (st_heap st) = max /\
    storage (free_list (st_heap st)) = [start_address (st_heap st)] /\
    max_size (free_list (st_heap st)) = HEAP_FREE_LIST_SIZE /\
    hdr_magic (st_mem st) (start_address (st_heap st)) = HEAP_MAGIC /\
    hdr_size (st_mem st) (start_address (st_heap st))
      = end_ - start_address (st_heap st) /\
    hdr_allocated (st_mem st) (start_address (st_heap st)) = 0 /\
    chain (st_mem st) (end_address (st_heap st)) (start_address (st_heap st)) /\
    blocks_partition st.
Proof.
  intros Hs Hssa Hfls data Hroom Hend. pose proof abi_wf as Habi. destruct Habi.
  unfold heap_create. fold data.
  assert (Hdata : 0 <= data < 2 ^ 32)
    by (unfold data, sizeof_pointer, PAGE_SIZE in *; lia).
  rewrite (wrap_small data) by assumption.
  set (s' := if align data =? data then data else wrap (align data + PAGE_SIZE)).
  assert (Hs' : data <= s' < data + PAGE_SIZE /\ s' mod PAGE_SIZE = 0).
  { unfold s'. destruct (align_facts data Hdata) as (Hal & Hle & Hlt & Hiff).
    destruct (Z.eqb_spec (align data) data) as [He | Hne].
    - split; [unfold PAGE_SIZE; lia | apply Hiff; assumption].
    - assert (align data <> data) by assumption.
      rewrite wrap_small by (unfold sizeof_pointer, PAGE_SIZE in *; lia).
      split; [lia |].
      rewrite <- Z.add_mod_idemp_l by (unfold PAGE_SIZE; lia).
      rewrite Hal. reflexivity. }
  destruct Hs' as [Hs'r Hs'a]. clearbody s'.
  destruct (add_hole_effect s' end_
              {| st_heap :=
                   {| free_list := sorted_array_place HEAP_FREE_LIST_SIZE;
                      start_address := s'; end_address := end_;
                      max_address := max |};
                 st_mem := m |})
    as (st & Hret & Hm & Hz & Ha & _ & _ & Hout & Hfl & Hsa & Hea & Hma);
    try (unfold sa_size;
         cbn [st_heap free_list storage max_size sorted_array_place length
              Z.of_nat];
         unfold sizeof_pointer, PAGE_SIZE in *; lia).
  exists st. cbn in Hfl, Hsa, Hea, Hma.
  split; [exact Hret |].
  rewrite Hsa, Hea, Hma, Hfl.
  repeat split; try assumption; try lia.
  - unfold add_hole, sorted_array_insert in Hret. cbn in Hret.
    destruct (HEAP_FREE_LIST_SIZE <=? 0); cbn in Hret; [discriminate |].
    inversion Hret. reflexivity.
  - apply chain_block; [assumption | rewrite Hz; unfold PAGE_SIZE, sizeof_pointer in *; lia |].
    rewrite Hz. replace (s' + (end_ - s')) with end_ by lia. apply chain_done.
  - unfold blocks_partition. rewrite Hsa, Hea.
    apply tiles_block; [assumption | rewrite Hz; unfold PAGE_SIZE, sizeof_pointer in *; lia |].
    rewrite Hz. replace (s' + (end_ - s')) with end_ by lia. apply tiles_done.
Qed.

End HoleFacts.

Lemma heap_create_postcondition_witness :
  exists st,
    fresh_heap = Ret st /\
    start_address (st_heap st) = 0x181000 /\
    @blocks_partition ia32 st.
Proof.
  destruct (@heap_create_postcondition ia32 ia32_ok 0x100000 0x200000 0x400000
              zero_memory)
    as (st & Hret & Hr & Ha & _ & _ & _ & _ & _ & _ & _ & _ & Hp);
    try (vm_compute; intuition discriminate).
  exists st. split; [exact Hret |]. split; [| exact Hp].
  unfold fresh_heap in Hret.
  assert (E : match @heap_create ia32 0x100000 0x200000 0x400000 zero_memory with
              | Ret s => start_address (st_heap s) = 0x181000
              | _ => True end) by (vm_compute; reflexivity).
  rewrite Hret in E. exact E.
Defined.

Lemma add_hole_writes_witness :
  exists st',
    @add_hole ia32 0x181000 0x200000
      {| st_heap := sample_heap; st_mem := zero_memory |} = Ret st' /\
    @hdr_size ia32 (st_mem st') 0x181000 = 0x7F000.
Proof.
  destruct (@add_hole_writes ia32 ia32_ok 0x181000 0x200000
              {| st_heap := sample_heap; st_mem := zero_memory |})
    as (st' & Hret & _ & Hz & _); try (vm_compute; intuition discriminate).
  exists st'. split; [exact Hret | exact Hz].
Defined.

(** ** A request that is refused *)

Section Refusal.
Context {A : abi}.

Lemma find_from_all_small m size pa l i :
  Forall (fun loc => hole_size m pa loc < size) l ->
  find_from m size pa l i = -1.
Proof.
  intros Hall. revert i. induction Hall as [| h r Hh _ IH]; intros i; simpl;
    [reflexivity |].
  destruct (Z.geb_spec (hole_size m pa h) size); [lia | apply IH].
Qed.

(** X12.  When no hole of the free list passes the test of the search
    and [heap_resize] refuses to grow the heap by the size of the request
    with its header and footer, [kalloc_heap] gives up: it returns without
    a pointer and the heap, the free list and the memory are as before. *)
Theorem kalloc_heap_refused (fuel : nat) (size : Z) (page_align : bool)
    (st : state) :
  let new_size := wrap (wrap size + sizeof_header + sizeof_footer) in
  Forall (fun loc => hole_size (st_mem st) page_align loc < new_size)
    (storage (free_list (st_heap st))) ->
  fst (heap_resize (wrap (heap_length (st_heap st) + new_size)) (st_heap st)) = -1 ->
  kalloc_heap (S fuel) size page_align st = Ret (None, st).
Proof.
  intros new_size Hall Hres. simpl. unfold kalloc_body. fold new_size.
  unfold find_smallest_hole. rewrite find_from_all_small by assumption.
  rewrite Z.eqb_refl. fold (heap_length (st_heap st)). rewrite Hres.
  rewrite Z.eqb_refl. reflexivity.
Qed.

End Refusal.

Lemma kalloc_heap_refused_witness :
  @kalloc_heap ia32 1 64 false full_state = Ret (None, full_state).
Proof.
  apply (@kalloc_heap_refused ia32 0 64 false full_state).
  - constructor.
  - reflexivity.
Defined.

(** ** Allocation in a hole, without page alignment *)

Section Split.
Context {A : abi}.
Hypothesis abi_wf : abi_ok A.

Lemma write_chunk_header_inside m c n :
  0 <= c -> c + sizeof_header <= 2 ^ 32 ->
  unchanged_outside c (c + sizeof_header) m (write_chunk_header m c n).
Proof.
  intros Hc Hfit. unfold write_chunk_header.
  eapply unchanged_trans;
    [eapply unchanged_trans;
     [apply (set_hdr_magic_inside abi_wf)
     | apply (set_hdr_allocated_inside abi_wf)]
    | apply (set_hdr_size_inside abi_wf)]; lia.
Qed.

(** The footer of a chunk: where it is written and what it holds. *)
Lemma write_chunk_footer_effect m c size :
  0 <= c -> 0 <= size -> c + sizeof_header + size + sizeof_footer <= 2 ^ 32 ->
  let f := c + sizeof_header + size in
  let m' := write_chunk_footer m c size in
  unchanged_outside f (f + sizeof_footer) m m' /\
  ftr_magic m' f = HEAP_MAGIC /\ ftr_header m' f = c.
Proof.
  intros Hc Hs Hfit f m'. destruct abi_wf.
  unfold m', write_chunk_footer.
  rewrite (wrap_small (c + sizeof_header + size)) by lia. fold f.
  split; [| split].
  - eapply unchanged_trans;
      [apply (set_ftr_magic_inside abi_wf) | apply (set_ftr_header_inside abi_wf)];
      unfold f; lia.
  - rewrite (ftr_magic_set_header abi_wf), ftr_magic_set_magic.
    apply wrap_small. assumption.
  - rewrite ftr_header_set_header. apply wrap_small. lia.
Qed.

(** The hole that is left after a chunk of [new] bytes in a hole of [old]
    bytes at [c]. *)
Lemma write_remainder_effect c old new size st :
  0 <= c -> 0 <= size -> new = sizeof_header + size + sizeof_footer ->
  new + sizeof_header + sizeof_footer <= old ->
  c + old <= end_address (st_heap st) -> c + old <= 2 ^ 32 ->
  sa_size (free_list (st_heap st)) < max_size (free_list (st_heap st)) ->
  exists st',
    write_remainder c old new size st = Ret st' /\
    let hole := c + new in
    unchanged_outside hole (c + old) (st_mem st) (st_mem st') /\
    hdr_magic (st_mem st') hole = HEAP_MAGIC /\
    hdr_allocated (st_mem st') hole = 0 /\
    hdr_size (st_mem st') hole = old - new /\
    ftr_magic (st_mem st') (c + old - sizeof_footer) = HEAP_MAGIC /\
    ftr_header (st_mem st') (c + old - sizeof_footer) = hole /\
    storage (free_list (st_heap st')) =
      insert_sorted (header_less_than (st_mem st')) hole
        (storage (free_list (st_heap st))) /\
    max_size (free_list (st_heap st')) = max_size (free_list (st_heap st)) /\
    start_address (st_heap st') = start_address (st_heap st) /\
    end_address (st_heap st') = end_address (st_heap st) /\
    max_address (st_heap st') = max_address (st_heap st).
Proof.
  intros Hc Hs Hnew Hroom Hend Hfit Hcap. pose proof abi_wf as Habi. destruct Habi.
  unfold write_remainder.
  rewrite (wrap_small (old - new)) by lia.
  replace (old - new >? 0) with true by (symmetry; apply Z.gtb_lt; lia).
  replace (wrap (c + sizeof_header + size + sizeof_footer)) with (c + new)
    by (rewrite wrap_small; lia).
  replace (wrap (c + new + old - new - sizeof_footer))
    with (c + old - sizeof_footer) by (rewrite wrap_small; lia).
  replace (c + old - sizeof_footer <? end_address (st_heap st)) with true
    by (symmetry; apply Z.ltb_lt; lia).
  unfold sorted_array_insert.
  replace (max_size (free_list (st_heap st)) <=? sa_size (free_list (st_heap st)))
    with false by (symmetry; apply Z.leb_gt; lia).
  cbn [bind]. eexists. split; [reflexivity |]. cbn [st_mem st_heap].
  set (hole := c + new). set (hf := c + old - sizeof_footer).
  set (m3 := set_hdr_size
               (set_hdr_allocated (set_hdr_magic (st_mem st) hole HEAP_MAGIC)
                                  hole 0) hole (old - new)).
  set (m5 := set_ftr_header (set_ftr_magic m3 hf HEAP_MAGIC) hf hole).
  assert (H03 : unchanged_outside hole (hole + sizeof_header) (st_mem st) m3).
  { unfold m3. eapply unchanged_trans;
      [eapply unchanged_trans;
       [apply (set_hdr_magic_inside abi_wf)
       | apply (set_hdr_allocated_inside abi_wf)]
      | apply (set_hdr_size_inside abi_wf)]; unfold hole; lia. }
  assert (H35 : unchanged_outside hf (hf + sizeof_footer) m3 m5).
  { unfold m5. eapply unchanged_trans;
      [apply (set_ftr_magic_inside abi_wf) | apply (set_ftr_header_inside abi_wf)];
      unfold hf; lia. }
  destruct (header_unchanged abi_wf _ _ _ _ hole H35) as (Hm & Hz & Ha);
    [unfold hole; lia | unfold hole; lia | unfold hole, hf; lia |].
  rewrite Hm, Hz, Ha. unfold m3.
  rewrite (hdr_magic_set_size abi_wf), (hdr_magic_set_allocated abi_wf),
    hdr_magic_set_magic.
  rewrite hdr_size_set_size.
  rewrite (hdr_allocated_set_size abi_wf), hdr_allocated_set_allocated.
  unfold m5. rewrite (ftr_magic_set_header abi_wf), ftr_magic_set_magic,
    ftr_header_set_header.
  rewrite !wrap_small by (unfold hole; lia).
  repeat split; try reflexivity.
  eapply unchanged_trans.
  - eapply unchanged_weaken; [| | exact H03]; unfold hole; lia.
  - eapply unchanged_weaken; [| | exact H35]; unfold hole, hf; lia.
Qed.

End Split.

Section Place.
Context {A : abi}.
Hypothesis abi_wf : abi_ok A.

Lemma chain_le m e a : chain m e a -> a <= e.
Proof.
  destruct abi_wf.
  induction 1 as [| a Hm Hs Hc IH]; lia.
Qed.


Lemma chain_app m mid e a : chain m mid a -> chain m e mid -> chain m e a.
Proof.
  induction 1 as [| a Hm Hs Hc IH]; intros H2; [assumption |].
  apply chain_block; auto.
Qed.

(** A chain that lies outside the bytes that changed is still a chain. *)
Lemma chain_unchanged lo hi m m' e a :
  unchanged_outside lo hi m m' -> chain m e a ->
  0 <= a -> e <= 2 ^ 32 -> e <= lo \/ hi <= a ->
  chain m' e a.
Proof.
  intros Hun Hc. pose proof abi_wf as Habi. destruct Habi.
  induction Hc as [| a Hm Hs Hc IH]; intros Ha He Hout; [apply chain_done |].
  pose proof (chain_le _ _ _ Hc) as Hle.
  destruct (header_unchanged abi_wf _ _ _ _ a Hun) as (Hm' & Hz' & Ha');
    [lia | lia | lia |].
  apply chain_block; rewrite ?Hm', ?Hz'; try assumption.
  apply IH; lia.
Qed.

(** What the placement of an allocation without page alignment does to the
    hole it was given. *)
Lemma kalloc_place_unaligned idx size new st :
  let h := st_heap st in
  let m := st_mem st in
  let loc := nth (Z.to_nat idx) (storage (free_list h)) 0 in
  let old := hdr_size m loc in
  0 <= idx < sa_size (free_list h) ->
  sa_size (free_list h) <= max_size (free_list h) ->
  0 <= size -> new = size + sizeof_header + sizeof_footer -> new <= old ->
  0 <= loc -> loc + old <= end_address h -> end_address h <= 2 ^ 32 ->
  exists st',
    kalloc_place idx size new false st = Ret (Some (loc + sizeof_header), st') /\
    let m' := st_mem st' in
    let got := granted_size old new in
    unchanged_outside loc (loc + old) m m' /\
    same_bounds h (st_heap st') /\ end_address (st_heap st') = end_address h /\
    hdr_magic m' loc = HEAP_MAGIC /\ hdr_allocated m' loc = 1 /\
    hdr_size m' loc = got /\
    ftr_magic m' (loc + got - sizeof_footer) = HEAP_MAGIC /\
    ftr_header m' (loc + got - sizeof_footer) = loc /\
    (old - new < sizeof_header + sizeof_footer ->
       storage (free_list (st_heap st')) =
       remove_nth (Z.to_nat idx) (storage (free_list h))) /\
    (sizeof_header + sizeof_footer <= old - new ->
       let hole := loc + new in
       hdr_magic m' hole = HEAP_MAGIC /\ hdr_allocated m' hole = 0 /\
       hdr_size m' hole = old - new /\
       ftr_magic m' (loc + old - sizeof_footer) = HEAP_MAGIC /\
       ftr_header m' (loc + old - sizeof_footer) = hole /\
       storage (free_list (st_heap st')) =
       insert_sorted (header_less_than m') hole
         (remove_nth (Z.to_nat idx) (storage (free_list h)))).
Proof.
  intros h m loc old Hidx Hcap Hsize Hnew Hfit Hloc Hend Hmax.
  pose proof abi_wf as Habi. destruct Habi.
  unfold kalloc_place. fold h m.
  rewrite (lookup_in_range idx (free_list h)) by assumption. cbn [bind].
  fold loc. fold old.
  unfold takes_carve_path. cbn [andb].
  rewrite (remove_in_range idx (free_list h)) by assumption. cbn [bind].
  rewrite (wrap_small (old - new)) by lia.
  rewrite (wrap_small (loc + sizeof_header)) by lia.
  unfold granted_size.
  destruct (Z.ltb_spec (old - new) (sizeof_header + sizeof_footer)) as [Habs | Hsplit].
  - (* the whole hole is taken *)
    unfold write_remainder. rewrite Z.sub_diag.
    replace (wrap 0 >? 0) with false by reflexivity.
    cbn [bind]. eexists. split; [reflexivity |]. cbn [st_mem st_heap].
    rewrite (wrap_small (size + old - new)) by lia.
    unfold write_chunk.
    set (m1 := write_chunk_header m loc old).
    pose proof (write_chunk_header_inside abi_wf m loc old Hloc ltac:(lia)) as H01.
    fold m1 in H01.
    destruct (write_chunk_footer_effect abi_wf m1 loc (size + old - new))
      as (H12 & Hfm & Hfh); [lia | lia | lia |].
    cbv zeta in H12, Hfm, Hfh.
    replace (loc + sizeof_header + (size + old - new))
      with (loc + old - sizeof_footer) in H12, Hfm, Hfh by lia.
    set (m2 := write_chunk_footer m1 loc (size + old - new)) in *.
    destruct (header_unchanged abi_wf _ _ _ _ loc H12) as (Hm & Hz & Ha);
      [lia | lia | lia |].
    destruct (write_chunk_header_fields abi_wf m loc old) as (Gm & Ga & Gz).
    fold m1 in Gm, Ga, Gz.
    assert (Hold : wrap old = old)
      by (apply wrap_small; unfold old, hdr_size; apply load32_range).
    split; [| split; [| split; [| split; [| split; [| split; [| split;
      [| split; [| split]]]]]]]].
    + eapply unchanged_trans.
      * eapply unchanged_weaken; [| | exact H01]; lia.
      * eapply unchanged_weaken; [| | exact H12]; lia.
    + repeat split.
    + reflexivity.
    + congruence.
    + congruence.
    + congruence.
    + assumption.
    + assumption.
    + reflexivity.
    + intros Heq. exfalso. lia.
  - (* a hole is left behind the block *)
    unfold write_chunk.
    set (m1 := write_chunk_header m loc new).
    pose proof (write_chunk_header_inside abi_wf m loc new Hloc ltac:(lia)) as H01.
    fold m1 in H01.
    destruct (write_chunk_footer_effect abi_wf m1 loc size)
      as (H12 & Hfm & Hfh); [lia | lia | lia |].
    cbv zeta in H12, Hfm, Hfh.
    replace (loc + sizeof_header + size)
      with (loc + new - sizeof_footer) in H12, Hfm, Hfh by lia.
    set (m2 := write_chunk_footer m1 loc size) in *.
    destruct (write_remainder_effect abi_wf loc old new size
                {| st_heap :=
                     set_free_list h
                       {| storage := remove_nth (Z.to_nat idx) (storage (free_list h));
                          max_size := max_size (free_list h) |};
                   st_mem := m2 |})
      as (st' & Hrun & Hrest);
      [lia | lia | lia | lia | cbn; fold h; lia | lia | |].
    { cbn [st_heap set_free_list free_list]. unfold sa_size in *.
      cbn [storage max_size].
      pose proof (remove_nth_length (Z.to_nat idx) (storage (free_list h))
                    ltac:(lia)). lia. }
    rewrite Hrun. cbn [bind]. eexists. split; [reflexivity |].
    cbn [st_mem st_heap]. cbv zeta in Hrest. cbn [st_mem st_heap set_free_list
      free_list storage max_size start_address end_address max_address] in Hrest.
    destruct Hrest as (H2r & Rm & Ra & Rz & Rfm & Rfh & Rst & Rmax & Rs & Re & Rx).
    destruct (header_unchanged abi_wf _ _ _ _ loc H12) as (Hm & Hz & Ha);
      [lia | lia | lia |].
    destruct (header_unchanged abi_wf _ _ _ _ loc H2r) as (Hm' & Hz' & Ha');
      [lia | lia | lia |].
    destruct (footer_unchanged abi_wf _ _ _ _ (loc + new - sizeof_footer) H2r)
      as (Fm & Fh); [lia | lia | lia |].
    destruct (write_chunk_header_fields abi_wf m loc new) as (Gm & Ga & Gz).
    fold m1 in Gm, Ga, Gz.
    assert (Hn : wrap new = new) by (apply wrap_small; lia).
    split; [| split; [| split; [| split; [| split; [| split; [| split;
      [| split; [| split]]]]]]]].
    + eapply unchanged_trans; [eapply unchanged_trans |].
      * eapply unchanged_weaken; [| | exact H01]; lia.
      * eapply unchanged_weaken; [| | exact H12]; lia.
      * eapply unchanged_weaken; [| | exact H2r]; lia.
    + unfold same_bounds. fold h. repeat split; congruence.
    + assumption.
    + congruence.
    + congruence.
    + congruence.
    + congruence.
    + congruence.
    + intros Heq. exfalso. lia.
    + intros _. repeat split; assumption.
Qed.

End Place.

Section Found.
Context {A : abi}.
Hypothesis abi_wf : abi_ok A.

(** A request that the search can serve goes to the placement, with a
    hole that is large enough. *)
Lemma kalloc_heap_found fuel size st idx :
  let h := st_heap st in
  let new := size + sizeof_header + sizeof_footer in
  find_smallest_hole new false st = idx -> 0 <= idx ->
  0 <= size -> new < 2 ^ 32 ->
  sa_size (free_list h) <= max_size (free_list h) ->
  max_size (free_list h) < 2 ^ 32 ->
  kalloc_heap (S fuel) size false st = kalloc_place idx size new false st /\
  0 <= idx < sa_size (free_list h) /\
  new <= hdr_size (st_mem st) (nth (Z.to_nat idx) (storage (free_list h)) 0).
Proof.
  intros h new Hfind Hidx Hsize Hnew Hcap Hmax.
  pose proof abi_wf as Habi. destruct Habi.
  assert (Hrange : 0 <= idx < sa_size (free_list h)).
  { destruct (find_from_bounds (st_mem st) new false (storage (free_list h)) 0
                ltac:(lia)) as [H | H];
      unfold find_smallest_hole in Hfind; fold h in Hfind;
      rewrite Hfind in H; unfold sa_size; lia. }
  split; [| split; [assumption |]].
  - cbn [kalloc_heap]. unfold kalloc_body.
    rewrite (wrap_small size) by lia.
    rewrite (wrap_small (size + sizeof_header + sizeof_footer)) by (fold new; lia).
    fold new. rewrite Hfind. rewrite (wrap_small idx) by lia.
    replace (idx =? wrap (-1)) with false; [reflexivity |].
    symmetry. apply Z.eqb_neq. change (wrap (-1)) with (2 ^ 32 - 1). lia.
  - pose proof (find_from_hit (st_mem st) new false (storage (free_list h)) 0
                  ltac:(lia)) as Hhit.
    unfold find_smallest_hole in Hfind. fold h in Hfind. rewrite Hfind in Hhit.
    specialize (Hhit ltac:(lia)). rewrite Z.sub_0_r in Hhit.
    unfold hole_size, hole_offset in Hhit. rewrite Z.sub_0_r in Hhit.
    rewrite wrap_small in Hhit by (unfold hdr_size; apply load32_range).
    lia.
Qed.


(** X14.  The free list after such an allocation.  When the rest of the
    hole could not hold a header and a footer, the free list is the old
    one without the entry of the hole.  Otherwise the rest becomes a hole
    of its own: its header, right behind the block, gets the magic, the
    flag 0 and the old size minus the block's size, and the free list is
    the old one without the entry of the found hole and with that header
    inserted. *)
Theorem kalloc_heap_unaligned_free_list (fuel : nat) (size : Z) (st : state)
    (idx : Z) :
  let h := st_heap st in
  let m := st_mem st in
  let entries := storage (free_list h) in
  let loc := nth (Z.to_nat idx) entries 0 in
  let old := hdr_size m loc in
  let new := size + sizeof_header + sizeof_footer in
  find_smallest_hole new false st = idx -> 0 <= idx ->
  0 <= size -> new < 2 ^ 32 ->
  sa_size (free_list h) <= max_size (free_list h) ->
  max_size (free_list h) < 2 ^ 32 ->
  0 <= loc -> loc + old <= end_address h -> end_address h <= 2 ^ 32 ->
  exists p st',
    kalloc_heap (S fuel) size false st = Ret (Some p, st') /\
    let m' := st_mem st' in
    let entries' := storage (free_list (st_heap st')) in
    (old - new < sizeof_header + sizeof_footer ->
       entries' = remove_nth (Z.to_nat idx) entries) /\
    (sizeof_header + sizeof_footer <= old - new ->
       let hole := loc + new in
       hdr_magic m' hole = HEAP_MAGIC /\ hdr_allocated m' hole = 0 /\
       hdr_size m' hole = old - new /\
       entries' = insert_sorted (header_less_than m') hole
                    (remove_nth (Z.to_nat idx) entries)).
Proof.
  intros h m entries loc old new Hfind Hidx Hsize Hnew Hcap Hmax Hloc Hin Hend.
  destruct (kalloc_heap_found fuel size st idx Hfind Hidx Hsize Hnew Hcap Hmax)
    as (Hrun & Hrange & Hfit).
  fold h m entries loc old new in Hrun, Hrange, Hfit.
  destruct (kalloc_place_unaligned abi_wf idx size new st Hrange Hcap Hsize
              eq_refl Hfit Hloc Hin Hend)
    as (st' & Hplace & _ & _ & _ & _ & _ & _ & _ & _ & Habs & Hsplit).
  exists (loc + sizeof_header), st'. split; [rewrite Hrun; exact Hplace |].
  cbv zeta. fold h m entries loc old new.
  split; [exact Habs |].
  intros Hrest. destruct (Hsplit Hrest) as (Rm & Ra & Rz & _ & _ & Rl).
  repeat split; assumption.
Qed.


End Found.


Lemma kalloc_heap_unaligned_free_list_witness :
  exists p st',
    @kalloc_heap ia32 1 64 false fresh_state = Ret (Some p, st') /\
    storage (free_list (st_heap st')) = [0x181054] /\
    @hdr_size ia32 (st_mem st') 0x181054 = 0x7EFAC.
Proof.
  destruct (@kalloc_heap_unaligned_free_list ia32 ia32_ok 0 64 fresh_state 0)
    as (p & st' & Hrun & _ & Hsplit);
    [vm_compute; intuition discriminate .. |].
  destruct Hsplit as (_ & _ & Hz & Hl);
    [vm_compute; discriminate |].
  exists p, st'. split; [exact Hrun |]. split; [exact Hl | exact Hz].
Defined.


(** ** Allocation in a hole, with page alignment *)

Section Carve.
Context {A : abi}.
Hypothesis abi_wf : abi_ok A.




End Carve.

Section Aligned.
Context {A : abi}.
Hypothesis abi_wf : abi_ok A.





End Aligned.



(** ** Allocation after growth *)

(** Growing, when the new end address is representable and within
    [max_address]. *)
Lemma heap_resize_grows h n :
  heap_wf h -> 0 <= n -> heap_length h < n ->
  start_address h + round_up_page n <= max_address h ->
  heap_resize n h = (0, set_end_address h (start_address h + round_up_page n)).
Proof.
  intros Hwf Hn Hlt Hfit.
  pose proof (round_up_page_ge n) as Hge.
  pose proof (round_up_page_aligned n) as Hal.
  destruct Hwf as [Hs He Hm].
  unfold heap_resize. rewrite (wrap_small n) by lia.
  fold (page_round n). rewrite page_round_spec by lia.
  fold (heap_length h).
  replace (round_up_page n <? heap_length h) with false
    by (symmetry; apply Z.ltb_ge; lia).
  replace (round_up_page n >? heap_length h) with true
    by (symmetry; apply Z.gtb_lt; lia).
  change (if 0xFFFFF000 =? 0 then 0 else 1) with 1.
  rewrite land_page_aligned_1 by assumption. simpl (0 =? 0).
  cbv iota. rewrite wrap_small by lia.
  replace (start_address h + round_up_page n >? max_address h) with false
    by (rewrite Z.gtb_ltb; symmetry; apply Z.ltb_ge; lia).
  reflexivity.
Qed.

Section Growth.
Context {A : abi}.
Hypothesis abi_wf : abi_ok A.

(** X21.  Growth from an empty free list.  When the free list is empty,
    [heap_resize] can add the bytes that the request needs, rounded up to
    a page boundary, and these [added] bytes without their last
    [sizeof(struct footer)] bytes hold the request, [kalloc_heap] without
    page alignment serves the request from the hole that it adds at the
    old end: it returns the old end plus [sizeof(struct header)], and the
    header at the old end has the magic and is marked allocated.  The hole
    had [added - sizeof(struct footer)] bytes: the block has the size of
    the request with header and footer and the header of the rest, right
    behind it, has the magic, the flag 0 and the size that reaches
    [old end + added - sizeof(struct footer)]; or, when the rest could not
    hold a header and a footer, the block has those
    [added - sizeof(struct footer)] bytes. *)
Theorem kalloc_heap_grows_from_empty (fuel : nat) (size : Z) (st : state) :
  let h := st_heap st in
  let m := st_mem st in
  let new := size + sizeof_header + sizeof_footer in
  let length := end_address h - start_address h in
  let added := round_up_page (length + new) - length in
  storage (free_list h) = [] -> 0 < max_size (free_list h) ->
  max_size (free_list h) < 2 ^ 32 ->
  heap_wf h -> 0 <= size ->
  start_address h + round_up_page (length + new) <= max_address h ->
  new <= added - sizeof_footer ->
  sizeof_header + sizeof_pointer * sizeof_footer <= added - sizeof_footer ->
  exists st',
    kalloc_heap (S (S fuel)) size false st
      = Ret (Some (end_address h + sizeof_header), st') /\
    let m' := st_mem st' in
    let rest := added - sizeof_footer - new in
    hdr_magic m' (end_address h) = HEAP_MAGIC /\
    hdr_allocated m' (end_address h) = 1 /\
    hdr_size m' (end_address h) = granted_size (added - sizeof_footer) new /\
    (sizeof_header + sizeof_footer <= rest ->
     hdr_magic m' (end_address h + new) = HEAP_MAGIC /\
     hdr_allocated m' (end_address h + new) = 0 /\
     hdr_size m' (end_address h + new) = rest).
Proof.
  intros h m new length added Hnil Hcap Hmax Hwf Hsize Hgrow Hfit Hroom.
  pose proof abi_wf as Habi. destruct Habi.
  pose proof (heap_length_wf h Hwf) as Hlen. fold length in Hlen.
  pose proof (round_up_page_ge (length + new)) as Hge.
  pose proof Hwf as [Hs He Hm].
  assert (Hnew : 0 <= new < 2 ^ 32) by (unfold new, added, length in *; lia).
  change (kalloc_heap (S (S fuel)) size false st)
    with (kalloc_body (kalloc_heap (S fuel)) (S fuel) size false st).
  unfold kalloc_body. fold h m.
  rewrite (wrap_small size) by lia.
  rewrite (wrap_small (size + sizeof_header + sizeof_footer)) by (fold new; lia).
  fold new.
  unfold find_smallest_hole. fold h. rewrite Hnil. cbn [find_from].
  rewrite Z.eqb_refl.
  fold (heap_length h). rewrite Hlen.
  rewrite (wrap_small (length + new)) by (unfold length in *; lia).
  rewrite (heap_resize_grows h (length + new) Hwf)
    by (rewrite ?Hlen; unfold length in *; lia).
  cbn [fst snd]. change (wrap 0 =? wrap (-1)) with false. cbv iota.
  set (h1 := set_end_address h (start_address h + round_up_page (length + new))).
  unfold extend_free_space.
  assert (Hscan : last_header_scan (S fuel) (free_list h1) 0 (wrap (-1)) 0
                  = Ret (wrap (-1), 0)).
  { cbn [last_header_scan]. unfold sa_size, h1.
    cbn [set_end_address free_list]. rewrite Hnil. reflexivity. }
  rewrite Hscan. cbn [bind fst]. rewrite Z.eqb_refl.
  replace (wrap (end_address h1 - start_address h1))
    with (round_up_page (length + new)).
  2:{ unfold h1. cbn [set_end_address end_address start_address].
      rewrite wrap_small by lia. lia. }
  fold length. fold added.
  rewrite (wrap_small added) by (unfold added, length in *; lia).
  rewrite (wrap_small (end_address h + added - sizeof_footer))
    by (unfold added, length, sizeof_pointer in *; lia).
  destruct (add_hole_effect abi_wf (end_address h)
              (end_address h + added - sizeof_footer)
              {| st_heap := h1; st_mem := m |})
    as (st1 & Hadd & Am & Az & Aa & _ & _ & Aout & Afl & As & Ae & Ax);
    [lia | lia | unfold added, length in *; lia
    | unfold sa_size, h1; cbn [st_heap set_end_address free_list];
      rewrite Hnil; cbn [List.length Z.of_nat]; lia |].
  rewrite Hadd. cbn [bind].
  cbn [st_heap st_mem] in Az, Aout, Afl, As, Ae, Ax.
  unfold h1 in Afl, As, Ae, Ax.
  cbn [set_end_address free_list start_address end_address max_address]
    in Afl, As, Ae, Ax.
  rewrite Hnil in Afl. cbn [insert_sorted] in Afl.
  replace (end_address h + added - sizeof_footer - end_address h)
    with (added - sizeof_footer) in Az by lia.
  assert (Hcap1 : max_size (free_list (st_heap st1)) = max_size (free_list h)).
  { unfold add_hole, sorted_array_insert in Hadd.
    destruct (_ <=? _) in Hadd; cbn [bind] in Hadd; [discriminate |].
    inversion Hadd. reflexivity. }
  assert (Hfind : find_smallest_hole new false st1 = 0).
  { unfold find_smallest_hole. rewrite Afl. cbn [find_from].
    rewrite hole_size_unaligned, Az.
    replace (added - sizeof_footer >=? new) with true
      by (symmetry; apply Z.geb_le; lia).
    reflexivity. }
  destruct (kalloc_heap_found abi_wf fuel size st1 0 Hfind ltac:(lia) Hsize
              ltac:(fold new; lia))
    as (Hrun & Hrange & Hold);
    [unfold sa_size; rewrite Afl, Hcap1; cbn [List.length Z.of_nat]; lia
    | rewrite Hcap1; assumption |].
  rewrite Afl in Hold. cbn [Z.to_nat nth] in Hold. fold new in Hrun, Hold.
  destruct (kalloc_place_unaligned abi_wf 0 size new st1)
    as (st' & Hplace & _ & _ & _ & Pm & Pa & Pz & _ & _ & _ & Hsplit);
    [exact Hrange
    | unfold sa_size; rewrite Afl, Hcap1; cbn [List.length Z.of_nat]; lia
    | assumption | reflexivity
    | rewrite Afl; cbn [Z.to_nat nth]; exact Hold
    | rewrite Afl; cbn [Z.to_nat nth]; lia
    | rewrite Afl; cbn [Z.to_nat nth]; rewrite Az, Ae;
      unfold added, length in *; lia
    | rewrite Ae; lia |].
  rewrite Afl in Hplace, Pm, Pa, Pz, Hsplit.
  cbn [Z.to_nat nth] in Hplace, Pm, Pa, Pz, Hsplit.
  rewrite Az in Pz, Hsplit.
  exists st'. split; [rewrite Hrun; exact Hplace |]. cbv zeta.
  split; [exact Pm |]. split; [exact Pa |]. split; [exact Pz |].
  intros Hrest. destruct (Hsplit Hrest) as (Rm & Ra & Rz & _).
  repeat split; assumption.
Qed.

End Growth.

Lemma taken_state_wf : heap_wf (st_heap taken_state).
Proof. split; vm_compute; intuition discriminate. Qed.

Lemma kalloc_heap_grows_from_empty_witness :
  exists st',
    @kalloc_heap ia32 2 16 false taken_state = Ret (Some 0x20000C, st') /\
    @hdr_size ia32 (st_mem st') 0x200000 = 36 /\
    @hdr_size ia32 (st_mem st') 0x200024 = 0xFD4.
Proof.
  destruct (@kalloc_heap_grows_from_empty ia32 ia32_ok 0 16 taken_state)
    as (st' & Hrun & _ & _ & Hz & Hsplit).
  - vm_compute. reflexivity.
  - vm_compute. reflexivity.
  - vm_compute. reflexivity.
  - exact taken_state_wf.
  - lia.
  - vm_compute. discriminate.
  - vm_compute. discriminate.
  - vm_compute. discriminate.
  - exists st'. split; [exact Hrun |]. split; [exact Hz |].
    destruct Hsplit as (_ & _ & Rz); [vm_compute; discriminate | exact Rz].
Defined.

(** ** Release *)

Section Release.
Context {A : abi}.
Hypothesis abi_wf : abi_ok A.

Lemma chain_inv m e a :
  chain m e a -> a <> e ->
  hdr_magic m a = HEAP_MAGIC /\ sizeof_header + sizeof_footer <= hdr_size m a /\
  chain m e (a + hdr_size m a).
Proof. intros H Hne. destruct H; [congruence | auto]. Qed.

(** The flag of another header after the flag of the header at [c] is
    cleared. *)
Lemma hdr_allocated_other m c v l :
  0 <= c -> c + sizeof_header <= 2 ^ 32 -> 0 <= l < 2 ^ 32 -> l <> c ->
  hdr_allocated (set_hdr_allocated m c v) l = hdr_allocated m l.
Proof.
  intros Hc Hfit Hl Hne. destruct abi_wf.
  unfold hdr_allocated, set_hdr_allocated.
  apply load8_store8_other.
  rewrite (wrap_small (c + off_allocated)) by lia.
  unfold wrap. intros Heq.
  pose proof (Z.div_mod (l + off_allocated) (2 ^ 32) ltac:(lia)) as Hd.
  assert (0 <= (l + off_allocated) / 2 ^ 32 < 2)
    by (split; [apply Z.div_pos; lia | apply Z.div_lt_upper_bound; lia]).
  lia.
Qed.

(** The pointer of the block at [c] leads [kfree_heap] past its checks. *)
Lemma kfree_heap_valid c st :
  let h := st_heap st in
  let m := st_mem st in
  let size := hdr_size m c in
  0 <= c -> sizeof_header + sizeof_footer <= size -> c + size < 2 ^ 32 ->
  hdr_magic m c = HEAP_MAGIC ->
  ftr_magic m (c + size - sizeof_footer) = HEAP_MAGIC ->
  kfree_heap (c + sizeof_header) st =
  (let p_footer := c + size - sizeof_footer in
   let m := set_hdr_allocated m c 0 in
   let '(p_header, m, add_to_free_list) := coalesce_left m c p_footer in
   let right_header := c + size in
   if (hdr_magic m right_header =? HEAP_MAGIC)
      && (hdr_allocated m right_header =? 0) then
     let m := set_hdr_size m p_header
                (wrap (hdr_size m p_header + hdr_size m right_header)) in
     let right_footer :=
       wrap (right_header + hdr_size m right_header - sizeof_pointer) in
     let p_header := right_footer in
     let i := index_of right_header (storage (free_list h)) 0 in
     if i >=? sa_size (free_list h) then Ret {| st_heap := h; st_mem := m |}
     else
       fl <- sorted_array_remove i (free_list h) ;;
       contract_and_insert p_header p_footer right_header add_to_free_list
         {| st_heap := set_free_list h fl; st_mem := m |}
   else
     contract_and_insert p_header p_footer right_header add_to_free_list
       {| st_heap := h; st_mem := m |}).
Proof.
  intros h m size Hc Hsize Hfit Hm Hf. destruct abi_wf.
  unfold kfree_heap. fold h m.
  replace (c + sizeof_header =? 0) with false by (symmetry; apply Z.eqb_neq; lia).
  unfold block_header, block_footer.
  replace (c + sizeof_header - sizeof_header) with c by lia.
  rewrite (wrap_small c) by lia. fold size.
  rewrite (wrap_small (c + size - sizeof_footer)) by lia.
  rewrite Hm, Hf, !Z.eqb_refl. cbn [negb].
  replace (c + size - sizeof_footer + sizeof_footer) with (c + size) by lia.
  rewrite (wrap_small (c + size)) by lia.
  reflexivity.
Qed.

(** X16.  Freeing a block whose neighbours are both in use, and which is
    not the last block of the heap: the call clears the allocated flag of
    its header, which is its only store to a header or a footer, and
    inserts the header into the free list; the size and the magic of the
    block stay as they are, and the blocks still follow one another over
    the range from [start_address] to [end_address] that the heap had at
    the call.  The left neighbour counts as in use when the footer before
    the block does not carry the magic, or points to another header that is
    marked allocated. *)
Theorem kfree_heap_no_merge (c : Z) (st : state) :
  let h := st_heap st in
  let m := st_mem st in
  let size := hdr_size m c in
  let left_footer := c - sizeof_footer in
  let right_header := c + size in
  sizeof_footer <= start_address h -> end_address h <= 2 ^ 32 ->
  chain m c (start_address h) ->
  hdr_magic m c = HEAP_MAGIC -> sizeof_header + sizeof_footer <= size ->
  ftr_magic m (c + size - sizeof_footer) = HEAP_MAGIC ->
  chain m (end_address h) right_header ->
  right_header <> end_address h -> hdr_allocated m right_header <> 0 ->
  ftr_magic m left_footer <> HEAP_MAGIC \/
    (ftr_header m left_footer <> c /\
     hdr_allocated m (ftr_header m left_footer) <> 0) ->
  sa_size (free_list h) < max_size (free_list h) ->
  exists st',
    kfree_heap (c + sizeof_header) st = Ret st' /\
    let m' := st_mem st' in
    let h' := st_heap st' in
    unchanged_outside c (c + sizeof_header) m m' /\
    hdr_magic m' c = HEAP_MAGIC /\ hdr_size m' c = size /\
    hdr_allocated m' c = 0 /\
    storage (free_list h') =
      insert_sorted (header_less_than m') c (storage (free_list h)) /\
    chain m' (end_address h) (start_address h).
Proof.
  intros h m size left_footer right_header Hstart Hend Hc1 Hm Hsize Hf Hc2
    Hne Hra Hleft Hcap.
  pose proof abi_wf as Habi. destruct Habi.
  pose proof (chain_le abi_wf _ _ _ Hc1) as Hle1.
  pose proof (chain_le abi_wf _ _ _ Hc2) as Hle2.
  destruct (chain_inv _ _ _ Hc2 Hne) as (Hrm & Hrs & Hrc).
  pose proof (chain_le abi_wf _ _ _ Hrc) as Hle3.
  assert (Hc : 0 <= c) by lia.
  assert (Hlt : c + size < 2 ^ 32) by (unfold right_header in *; lia).
  rewrite (kfree_heap_valid c st Hc Hsize Hlt Hm Hf). fold h m size.
  cbv zeta.
  set (m0 := set_hdr_allocated m c 0).
  assert (H0 : unchanged_outside c (c + sizeof_header) m m0)
    by (apply (set_hdr_allocated_inside abi_wf); unfold right_header in *; lia).
  unfold coalesce_left.
  rewrite (wrap_small (c - sizeof_footer)) by (unfold right_header in *; lia).
  fold left_footer.
  destruct (footer_unchanged abi_wf _ _ _ _ left_footer H0) as (Lm & Lh);
    [unfold left_footer; lia | unfold left_footer, right_header in *; lia
    | unfold left_footer; lia |].
  assert (Htest : (ftr_magic m0 left_footer =? HEAP_MAGIC)
                  && (hdr_allocated m0 (ftr_header m0 left_footer) =? 0) = false).
  { rewrite Lm, Lh. destruct Hleft as [Hl | (Hl1 & Hl2)].
    - apply andb_false_iff. left. apply Z.eqb_neq. assumption.
    - apply andb_false_iff. right. apply Z.eqb_neq. unfold m0.
      rewrite (hdr_allocated_other m c 0 (ftr_header m left_footer));
        [assumption | lia | unfold right_header in *; lia
        | unfold ftr_header; apply load32_range | assumption]. }
  rewrite Htest. fold right_header.
  destruct (header_unchanged abi_wf _ _ _ _ right_header H0) as (Rm & Rz & Ra);
    [unfold right_header; lia | lia | unfold right_header; lia |].
  replace ((hdr_magic m0 right_header =? HEAP_MAGIC)
           && (hdr_allocated m0 right_header =? 0)) with false
    by (symmetry; apply andb_false_iff; right; apply Z.eqb_neq; congruence).
  unfold contract_and_insert. cbn [st_heap st_mem].
  replace (c + size - sizeof_footer + sizeof_footer) with right_header
    by (unfold right_header; lia).
  rewrite (wrap_small right_header) by (unfold right_header in *; lia).
  replace (right_header =? end_address h) with false
    by (symmetry; apply Z.eqb_neq; assumption).
  cbn [bind st_heap st_mem]. unfold sorted_array_insert.
  replace (max_size (free_list h) <=? sa_size (free_list h)) with false
    by (symmetry; apply Z.leb_gt; lia).
  cbn [bind]. eexists. split; [reflexivity |].
  cbn [st_mem st_heap set_free_list free_list storage start_address end_address].
  assert (Gm : hdr_magic m0 c = HEAP_MAGIC)
    by (unfold m0; rewrite (hdr_magic_set_allocated abi_wf); assumption).
  assert (Gz : hdr_size m0 c = size)
    by (unfold m0; rewrite (hdr_size_set_allocated abi_wf); reflexivity).
  split; [exact H0 |]. split; [exact Gm |]. split; [exact Gz |].
  split; [unfold m0; rewrite hdr_allocated_set_allocated; reflexivity |].
  split; [reflexivity |].
  apply (chain_app m0 c).
  - apply (chain_unchanged abi_wf c (c + sizeof_header) m); (assumption || lia).
  - apply chain_block; [assumption | lia |]. rewrite Gz.
    apply (chain_unchanged abi_wf c (c + sizeof_header) m);
      try (assumption || (unfold right_header; lia)).
Qed.

(** X17.  Freeing a block whose left neighbour is a hole, whose right
    neighbour is in use, and which is not the last block of the heap: the
    two blocks become one hole.  The size of the left header grows by the
    size of the freed block, the footer of the freed block points back to
    the left header, the free list and the bounds of the heap are not
    touched, no byte outside the two blocks is written, and the blocks
    still follow one another from [start_address] to [end_address]. *)
Theorem kfree_heap_left_merge (c : Z) (st : state) :
  let h := st_heap st in
  let m := st_mem st in
  let size := hdr_size m c in
  let left := ftr_header m (c - sizeof_footer) in
  let left_size := hdr_size m left in
  let right_header := c + size in
  0 <= start_address h -> end_address h <= 2 ^ 32 ->
  chain m left (start_address h) ->
  hdr_magic m left = HEAP_MAGIC -> hdr_allocated m left = 0 ->
  sizeof_header + sizeof_footer <= left_size -> left + left_size = c ->
  ftr_magic m (c - sizeof_footer) = HEAP_MAGIC ->
  hdr_magic m c = HEAP_MAGIC -> sizeof_header + sizeof_footer <= size ->
  ftr_magic m (c + size - sizeof_footer) = HEAP_MAGIC ->
  chain m (end_address h) right_header ->
  right_header <> end_address h -> hdr_allocated m right_header <> 0 ->
  exists st',
    kfree_heap (c + sizeof_header) st = Ret st' /\
    let m' := st_mem st' in
    st_heap st' = h /\
    unchanged_outside left right_header m m' /\
    hdr_magic m' left = HEAP_MAGIC /\ hdr_allocated m' left = 0 /\
    hdr_size m' left = left_size + size /\
    ftr_magic m' (left + (left_size + size) - sizeof_footer) = HEAP_MAGIC /\
    ftr_header m' (left + (left_size + size) - sizeof_footer) = left /\
    chain m' (end_address h) (start_address h).
Proof.
  intros h m size left left_size right_header Hstart Hend Hc1 Hlm Hla Hls Hadj
    Hlf Hm Hsize Hf Hc2 Hne Hra.
  pose proof abi_wf as Habi. destruct Habi.
  pose proof (chain_le abi_wf _ _ _ Hc1) as Hle1.
  pose proof (chain_le abi_wf _ _ _ Hc2) as Hle2.
  destruct (chain_inv _ _ _ Hc2 Hne) as (Hrm & Hrs & Hrc).
  pose proof (chain_le abi_wf _ _ _ Hrc) as Hle3.
  assert (Hc : 0 <= c) by lia.
  assert (Hlt : c + size < 2 ^ 32) by (unfold right_header in *; lia).
  rewrite (kfree_heap_valid c st Hc Hsize Hlt Hm Hf). fold h m size.
  cbv zeta.
  set (f := c + size - sizeof_footer).
  set (m0 := set_hdr_allocated m c 0).
  assert (H0 : unchanged_outside c (c + sizeof_header) m m0)
    by (apply (set_hdr_allocated_inside abi_wf); unfold right_header in *; lia).
  unfold coalesce_left.
  rewrite (wrap_small (c - sizeof_footer)) by (unfold right_header in *; lia).
  destruct (footer_unchanged abi_wf _ _ _ _ (c - sizeof_footer) H0) as (Lm & Lh);
    [lia | unfold right_header in *; lia | lia |].
  fold left in Lh. rewrite Lm, Lh, Hlf, Z.eqb_refl.
  destruct (header_unchanged abi_wf _ _ _ _ left H0) as (L0m & L0z & L0a);
    [lia | unfold right_header in *; lia | lia |].
  rewrite L0a, Hla. cbn [Z.eqb andb].
  assert (Gz : hdr_size m0 c = size)
    by (unfold m0; rewrite (hdr_size_set_allocated abi_wf); reflexivity).
  rewrite Gz.
  set (m1 := set_ftr_header m0 f left).
  assert (H1 : unchanged_outside f (f + sizeof_footer) m0 m1)
    by (apply (set_ftr_header_inside abi_wf); unfold f, right_header in *; lia).
  destruct (header_unchanged abi_wf _ _ _ _ left H1) as (L1m & L1z & L1a);
    [lia | unfold right_header in *; lia | unfold f; lia |].
  rewrite L1z, L0z. fold left_size.
  rewrite (wrap_small (left_size + size)) by (unfold right_header in *; lia).
  set (m2 := set_hdr_size m1 left (left_size + size)).
  assert (H2 : unchanged_outside left (left + sizeof_header) m1 m2)
    by (apply (set_hdr_size_inside abi_wf); unfold right_header in *; lia).
  assert (Hall : unchanged_outside left right_header m m2).
  { eapply unchanged_trans; [eapply unchanged_trans |].
    - eapply unchanged_weaken; [| | exact H0]; unfold right_header; lia.
    - eapply unchanged_weaken; [| | exact H1]; unfold f, right_header; lia.
    - eapply unchanged_weaken; [| | exact H2]; unfold right_header; lia. }
  fold f. fold right_header.
  destruct (header_unchanged abi_wf _ _ _ _ right_header Hall) as (Rm & Rz & Ra);
    [unfold right_header; lia | lia | unfold right_header; lia |].
  replace ((hdr_magic m2 right_header =? HEAP_MAGIC)
           && (hdr_allocated m2 right_header =? 0)) with false
    by (symmetry; apply andb_false_iff; right; apply Z.eqb_neq; congruence).
  unfold contract_and_insert. cbn [st_heap st_mem].
  replace (f + sizeof_footer) with right_header
    by (unfold f, right_header; lia).
  rewrite (wrap_small right_header) by (unfold right_header in *; lia).
  replace (right_header =? end_address h) with false
    by (symmetry; apply Z.eqb_neq; assumption).
  cbn [bind]. destruct st as [h0 mem0]. cbn [st_heap st_mem] in *.
  eexists. split; [reflexivity |]. cbn [st_heap st_mem].
  assert (Gm2 : hdr_magic m2 left = HEAP_MAGIC)
    by (unfold m2; rewrite (hdr_magic_set_size abi_wf); congruence).
  assert (Gz2 : hdr_size m2 left = left_size + size).
  { unfold m2. rewrite hdr_size_set_size. apply wrap_small.
    unfold right_header in *; lia. }
  assert (Ga2 : hdr_allocated m2 left = 0)
    by (unfold m2; rewrite (hdr_allocated_set_size abi_wf); congruence).
  replace (left + (left_size + size) - sizeof_footer) with f by (unfold f; lia).
  destruct (footer_unchanged abi_wf _ _ _ _ f H2) as (F2m & F2h);
    [unfold f; lia | unfold f, right_header in *; lia | unfold f; lia |].
  destruct (footer_unchanged abi_wf _ _ _ _ f H0) as (F0m & F0h);
    [unfold f; lia | unfold f, right_header in *; lia | unfold f; lia |].
  split; [reflexivity |]. split; [exact Hall |].
  split; [exact Gm2 |]. split; [exact Ga2 |]. split; [exact Gz2 |].
  split; [| split].
  - rewrite F2m. unfold m1. rewrite (ftr_magic_set_header abi_wf), F0m.
    exact Hf.
  - rewrite F2h. unfold m1. rewrite ftr_header_set_header. apply wrap_small.
    unfold left, ftr_header. apply load32_range.
  - apply (chain_app m2 left).
    + apply (chain_unchanged abi_wf left right_header m); (assumption || lia).
    + apply chain_block; [assumption | lia |]. rewrite Gz2.
      replace (left + (left_size + size)) with right_header
        by (unfold right_header; lia).
      apply (chain_unchanged abi_wf left right_header m); (assumption || lia).
Qed.

End Release.

Ltac walk_chain :=
  vm_compute;
  first [ apply chain_done
        | apply chain_block;
          [vm_compute; reflexivity | vm_compute; discriminate | walk_chain] ].

Lemma kfree_heap_no_merge_witness :
  exists st',
    @kfree_heap ia32 0x181060 four_blocks = Ret st' /\
    @hdr_allocated ia32 (st_mem st') 0x181054 = 0 /\
    @chain ia32 (st_mem st') (end_address (st_heap four_blocks))
      (start_address (st_heap four_blocks)).
Proof.
  destruct (@kfree_heap_no_merge ia32 ia32_ok 0x181054 four_blocks)
    as (st' & Hrun & _ & _ & _ & Ha & _ & Hc).
  - vm_compute. discriminate.
  - vm_compute. discriminate.
  - walk_chain.
  - vm_compute. reflexivity.
  - vm_compute. discriminate.
  - vm_compute. reflexivity.
  - walk_chain.
  - vm_compute. discriminate.
  - vm_compute. discriminate.
  - right. split; vm_compute; discriminate.
  - vm_compute. reflexivity.
  - exists st'. split; [exact Hrun |]. split; [exact Ha | exact Hc].
Defined.

Lemma kfree_heap_left_merge_witness :
  exists st',
    @kfree_heap ia32 0x1810B4 second_freed = Ret st' /\
    @hdr_size ia32 (st_mem st') 0x181054 = 168 /\
    @ftr_header ia32 (st_mem st') 0x1810F4 = 0x181054 /\
    st_heap st' = st_heap second_freed.
Proof.
  destruct (@kfree_heap_left_merge ia32 ia32_ok 0x1810A8 second_freed)
    as (st' & Hrun & Hh & _ & _ & _ & Hz & _ & Hfh & _).
  - vm_compute. discriminate.
  - vm_compute. discriminate.
  - walk_chain.
  - vm_compute. reflexivity.
  - vm_compute. reflexivity.
  - vm_compute. discriminate.
  - vm_compute. reflexivity.
  - vm_compute. reflexivity.
  - vm_compute. reflexivity.
  - vm_compute. discriminate.
  - vm_compute. reflexivity.
  - walk_chain.
  - vm_compute. discriminate.
  - vm_compute. discriminate.
  - exists st'. split; [exact Hrun |]. split; [exact Hz |].
    split; [exact Hfh | exact Hh].
Defined.

Section LastBlock.
Context {A : abi}.
Hypothesis abi_wf : abi_ok A.

Lemma wrap_negative x : - 2 ^ 32 <= x < 0 -> wrap x = 2 ^ 32 + x.
Proof.
  intros H. unfold wrap.
  replace x with (2 ^ 32 + x + (-1) * 2 ^ 32) by lia.
  rewrite Z.mod_add by lia. rewrite Z.mod_small by lia. lia.
Qed.

(** X18.  Freeing the last block of the heap when it is not the only
    one, its left neighbour is in use and [heap_resize] returns 0.  The
    contraction takes the return code of [heap_resize] for the new length
    of the heap: the size of the freed block becomes its old size minus the
    whole length of the heap, modulo [2^32], and the footer of the block
    is written in the bytes just before [start_address], outside the
    heap; the header keeps the magic and is marked free. *)
Theorem kfree_heap_last_block (c : Z) (st : state) :
  let h := st_heap st in
  let m := st_mem st in
  let size := hdr_size m c in
  let length := end_address h - start_address h in
  let left_footer := c - sizeof_footer in
  sizeof_footer <= start_address h -> start_address h < c ->
  end_address h + sizeof_header <= 2 ^ 32 ->
  hdr_magic m c = HEAP_MAGIC -> sizeof_header + sizeof_footer <= size ->
  ftr_magic m (c + size - sizeof_footer) = HEAP_MAGIC ->
  c + size = end_address h ->
  ftr_magic m left_footer <> HEAP_MAGIC \/
    (ftr_header m left_footer <> c /\
     hdr_allocated m (ftr_header m left_footer) <> 0) ->
  hdr_magic m (end_address h) <> HEAP_MAGIC \/
    hdr_allocated m (end_address h) <> 0 ->
  fst (heap_resize (c - start_address h) h) = 0 ->
  sa_size (free_list h) < max_size (free_list h) ->
  exists st',
    kfree_heap (c + sizeof_header) st = Ret st' /\
    let m' := st_mem st' in
    hdr_magic m' c = HEAP_MAGIC /\ hdr_allocated m' c = 0 /\
    hdr_size m' c = 2 ^ 32 + size - length /\
    ftr_magic m' (start_address h - sizeof_footer) = HEAP_MAGIC /\
    ftr_header m' (start_address h - sizeof_footer) = c.
Proof.
  intros h m size length left_footer Hstart Hc0 Hend Hm Hsize Hf Hlast Hleft
    Hright Hcode Hcap.
  pose proof abi_wf as Habi. destruct Habi.
  assert (Hc : 0 <= c) by lia.
  assert (Hlt : c + size < 2 ^ 32) by lia.
  rewrite (kfree_heap_valid abi_wf c st Hc Hsize Hlt Hm Hf). fold h m size.
  cbv zeta.
  set (m0 := set_hdr_allocated m c 0).
  assert (H0 : unchanged_outside c (c + sizeof_header) m m0)
    by (apply (set_hdr_allocated_inside abi_wf); lia).
  unfold coalesce_left.
  rewrite (wrap_small (c - sizeof_footer)) by lia.
  fold left_footer.
  destruct (footer_unchanged abi_wf _ _ _ _ left_footer H0) as (Lm & Lh);
    [unfold left_footer; lia | unfold left_footer; lia
    | unfold left_footer; lia |].
  assert (Htest : (ftr_magic m0 left_footer =? HEAP_MAGIC)
                  && (hdr_allocated m0 (ftr_header m0 left_footer) =? 0) = false).
  { rewrite Lm, Lh. destruct Hleft as [Hl | (Hl1 & Hl2)].
    - apply andb_false_iff. left. apply Z.eqb_neq. assumption.
    - apply andb_false_iff. right. apply Z.eqb_neq. unfold m0.
      rewrite (hdr_allocated_other abi_wf m c 0 (ftr_header m left_footer));
        [assumption | lia | lia
        | unfold ftr_header; apply load32_range | assumption]. }
  rewrite Htest. rewrite Hlast.
  destruct (header_unchanged abi_wf _ _ _ _ (end_address h) H0) as (Rm & Rz & Ra);
    [lia | lia | lia |].
  replace ((hdr_magic m0 (end_address h) =? HEAP_MAGIC)
           && (hdr_allocated m0 (end_address h) =? 0)) with false
    by (symmetry; apply andb_false_iff; rewrite Rm, Ra;
        destruct Hright; [left | right]; apply Z.eqb_neq; assumption).
  unfold contract_and_insert. cbn [st_heap st_mem].
  replace (end_address h - sizeof_footer + sizeof_footer) with (end_address h)
    by lia.
  rewrite (wrap_small (end_address h)) by lia.
  rewrite Z.eqb_refl.
  rewrite (wrap_small (c - start_address h)) by lia.
  rewrite Hcode.
  assert (Gz : hdr_size m0 c = size)
    by (unfold m0; rewrite (hdr_size_set_allocated abi_wf); reflexivity).
  rewrite Gz.
  change (wrap 0) with 0. rewrite Z.sub_0_r.
  rewrite !(wrap_small (end_address h - start_address h)) by lia.
  fold length.
  rewrite (wrap_negative (size - length)) by (unfold length; lia).
  set (size' := 2 ^ 32 + (size - length)).
  replace (size' >? 0) with true
    by (symmetry; apply Z.gtb_lt; unfold size', length; lia).
  rewrite hdr_size_set_size.
  rewrite (wrap_small size') by (unfold size', length; lia).
  replace (wrap (c + size' - sizeof_footer))
    with (start_address h - sizeof_footer).
  2:{ unfold size', length, wrap.
      replace (c + (2 ^ 32 + (size - (end_address h - start_address h)))
               - sizeof_footer)
        with (start_address h - sizeof_footer + 1 * 2 ^ 32) by lia.
      rewrite Z.mod_add by lia. rewrite Z.mod_small by lia. reflexivity. }
  set (pf := start_address h - sizeof_footer).
  set (m1 := set_hdr_size m0 c size').
  set (m3 := set_ftr_header (set_ftr_magic m1 pf HEAP_MAGIC) pf c).
  cbn [bind st_heap st_mem]. unfold sorted_array_insert.
  rewrite heap_resize_free_list.
  replace (max_size (free_list h) <=? sa_size (free_list h)) with false
    by (symmetry; apply Z.leb_gt; lia).
  cbn [bind]. eexists. split; [reflexivity |].
  cbn [st_mem st_heap set_free_list free_list storage start_address end_address].
  assert (H13 : unchanged_outside pf (pf + sizeof_footer) m1 m3).
  { unfold m3. eapply unchanged_trans;
      [apply (set_ftr_magic_inside abi_wf) | apply (set_ftr_header_inside abi_wf)];
      unfold pf; lia. }
  destruct (header_unchanged abi_wf _ _ _ _ c H13) as (Cm & Cz & Ca);
    [lia | lia | unfold pf; lia |].
  split; [| split; [| split; [| split]]].
  - rewrite Cm. unfold m1, m0.
    rewrite (hdr_magic_set_size abi_wf), (hdr_magic_set_allocated abi_wf).
    assumption.
  - rewrite Ca. unfold m1, m0.
    rewrite (hdr_allocated_set_size abi_wf), hdr_allocated_set_allocated.
    reflexivity.
  - rewrite Cz. unfold m1. rewrite hdr_size_set_size.
    rewrite wrap_small by (unfold size', length; lia). unfold size'. lia.
  - unfold m3. rewrite (ftr_magic_set_header abi_wf), ftr_magic_set_magic.
    apply wrap_small. assumption.
  - unfold m3. rewrite ftr_header_set_header. apply wrap_small. lia.
Qed.

End LastBlock.

Lemma kfree_heap_last_block_witness :
  exists st',
    @kfree_heap ia32 0x1810B4 last_block_state = Ret st' /\
    @hdr_size ia32 (st_mem st') 0x1810A8 = 0xFFFFFF58 /\
    @ftr_header ia32 (st_mem st') 0x180FF8 = 0x1810A8.
Proof.
  destruct (@kfree_heap_last_block ia32 ia32_ok 0x1810A8 last_block_state)
    as (st' & Hrun & _ & _ & Hz & _ & Hfh).
  - vm_compute. discriminate.
  - vm_compute. reflexivity.
  - vm_compute. discriminate.
  - vm_compute. reflexivity.
  - vm_compute. discriminate.
  - vm_compute. reflexivity.
  - vm_compute. reflexivity.
  - right. split; vm_compute; discriminate.
  - left. vm_compute. discriminate.
  - vm_compute. reflexivity.
  - vm_compute. reflexivity.
  - exists st'. split; [exact Hrun |]. split; [exact Hz | exact Hfh].
Defined.

Lemma index_of_In x l i :
  In x l ->
  i <= index_of x l i < i + Z.of_nat (length l) /\
  nth (Z.to_nat (index_of x l i - i)) l 0 = x.
Proof.
  revert i. induction l as [| y r IH]; intros i Hin; [destruct Hin |].
  cbn [index_of length].
  destruct (Z.eqb_spec y x) as [-> | Hne].
  - rewrite Z.sub_diag. split; [lia | reflexivity].
  - destruct Hin as [Heq | Hin]; [congruence |].
    destruct (IH (i + 1) Hin) as (Hr & Hn).
    split; [lia |].
    replace (Z.to_nat (index_of x r (i + 1) - i))
      with (S (Z.to_nat (index_of x r (i + 1) - (i + 1)))) by lia.
    exact Hn.
Qed.

Section RightMerge.
Context {A : abi}.
Hypothesis abi_wf : abi_ok A.

(** X22.  Freeing a valid block whose right neighbour is a hole of the
    free list and whose left neighbour is in use.  The size of the freed
    header grows by the size of the right block and its flag is cleared,
    and these are the only bytes written: the footer at the end of the
    merged block is not rewritten and holds what the footer of the right
    block held.  The entry of the right block is removed from the free
    list; the entry that is inserted is not the header of the merged block
    but the address [sizeof(void * )] bytes before its end.  The headers
    still follow one another over the range from [start_address] to
    [end_address] that the heap had at the call. *)
Theorem kfree_heap_right_merge (c : Z) (st : state) :
  let h := st_heap st in
  let m := st_mem st in
  let size := hdr_size m c in
  let left_footer := c - sizeof_footer in
  let right := c + size in
  let right_size := hdr_size m right in
  let entries := storage (free_list h) in
  sizeof_footer <= start_address h -> end_address h <= 2 ^ 32 ->
  chain m c (start_address h) ->
  hdr_magic m c = HEAP_MAGIC -> sizeof_header + sizeof_footer <= size ->
  ftr_magic m (c + size - sizeof_footer) = HEAP_MAGIC ->
  hdr_magic m right = HEAP_MAGIC -> hdr_allocated m right = 0 ->
  sizeof_header + sizeof_footer <= right_size ->
  chain m (end_address h) (right + right_size) ->
  In right entries ->
  sa_size (free_list h) <= max_size (free_list h) ->
  ftr_magic m left_footer <> HEAP_MAGIC \/
    (ftr_header m left_footer <> c /\
     hdr_allocated m (ftr_header m left_footer) <> 0) ->
  exists st',
    kfree_heap (c + sizeof_header) st = Ret st' /\
    let m' := st_mem st' in
    let h' := st_heap st' in
    let merged_footer := c + (size + right_size) - sizeof_footer in
    unchanged_outside c (c + sizeof_header) m m' /\
    hdr_magic m' c = HEAP_MAGIC /\ hdr_allocated m' c = 0 /\
    hdr_size m' c = size + right_size /\
    ftr_magic m' merged_footer = ftr_magic m merged_footer /\
    ftr_header m' merged_footer = ftr_header m merged_footer /\
    storage (free_list h') =
      insert_sorted (header_less_than m')
        (c + (size + right_size) - sizeof_pointer)
        (remove_nth (Z.to_nat (index_of right entries 0)) entries) /\
    chain m' (end_address h) (start_address h).
Proof.
  intros h m size left_footer right right_size entries Hstart Hend Hc1 Hm Hsize
    Hf Hrm Hra Hrs Hc2 Hin Hcap Hleft.
  pose proof abi_wf as Habi. destruct Habi.
  pose proof (chain_le abi_wf _ _ _ Hc1) as Hle1.
  pose proof (chain_le abi_wf _ _ _ Hc2) as Hle2.
  assert (Hc : 0 <= c) by lia.
  assert (Hlt : c + size < 2 ^ 32) by (unfold right in *; lia).
  rewrite (kfree_heap_valid abi_wf c st Hc Hsize Hlt Hm Hf). fold h m size.
  cbv zeta.
  set (m0 := set_hdr_allocated m c 0).
  assert (H0 : unchanged_outside c (c + sizeof_header) m m0)
    by (apply (set_hdr_allocated_inside abi_wf); unfold right in *; lia).
  unfold coalesce_left.
  rewrite (wrap_small (c - sizeof_footer)) by (unfold right in *; lia).
  fold left_footer.
  destruct (footer_unchanged abi_wf _ _ _ _ left_footer H0) as (Lm & Lh);
    [unfold left_footer; lia | unfold left_footer, right in *; lia
    | unfold left_footer; lia |].
  assert (Htest : (ftr_magic m0 left_footer =? HEAP_MAGIC)
                  && (hdr_allocated m0 (ftr_header m0 left_footer) =? 0) = false).
  { rewrite Lm, Lh. destruct Hleft as [Hl | (Hl1 & Hl2)].
    - apply andb_false_iff. left. apply Z.eqb_neq. assumption.
    - apply andb_false_iff. right. apply Z.eqb_neq. unfold m0.
      rewrite (hdr_allocated_other abi_wf m c 0 (ftr_header m left_footer));
        [assumption | lia | unfold right in *; lia
        | unfold ftr_header; apply load32_range | assumption]. }
  rewrite Htest. fold right.
  destruct (header_unchanged abi_wf _ _ _ _ right H0) as (Rm & Rz & Ra);
    [unfold right; lia | lia | unfold right; lia |].
  rewrite Rm, Ra, Hrm, Hra, !Z.eqb_refl. cbn [andb].
  assert (Gz : hdr_size m0 c = size)
    by (unfold m0; rewrite (hdr_size_set_allocated abi_wf); reflexivity).
  rewrite Gz, Rz. fold right_size.
  rewrite (wrap_small (size + right_size)) by (unfold right in *; lia).
  set (m1 := set_hdr_size m0 c (size + right_size)).
  assert (H1 : unchanged_outside c (c + sizeof_header) m0 m1)
    by (apply (set_hdr_size_inside abi_wf); unfold right in *; lia).
  assert (H01 : unchanged_outside c (c + sizeof_header) m m1)
    by (eapply unchanged_trans; eassumption).
  destruct (header_unchanged abi_wf _ _ _ _ right H01) as (R1m & R1z & R1a);
    [unfold right; lia | lia | unfold right; lia |].
  rewrite R1z. fold right_size.
  unfold sizeof_pointer in *.
  rewrite (wrap_small (right + right_size - 4)) by (unfold right in *; lia).
  fold h entries.
  destruct (index_of_In right entries 0 Hin) as (Hidx & _).
  replace (index_of right entries 0 >=? sa_size (free_list h)) with false
    by (symmetry; rewrite Z.geb_leb; apply Z.leb_gt; unfold sa_size;
        fold entries; lia).
  rewrite (remove_in_range (index_of right entries 0) (free_list h))
    by (unfold sa_size; fold entries; lia).
  cbn [bind]. unfold contract_and_insert. cbn [st_heap st_mem].
  replace (c + size - sizeof_footer + sizeof_footer) with right
    by (unfold right; lia).
  rewrite (wrap_small right) by (unfold right in *; lia).
  replace (right =? end_address (set_free_list h _)) with false
    by (symmetry; apply Z.eqb_neq; cbn [set_free_list end_address]; lia).
  cbn [bind st_heap st_mem]. unfold sorted_array_insert.
  cbn [set_free_list free_list max_size].
  replace (max_size (free_list h) <=? sa_size _) with false.
  2:{ symmetry. apply Z.leb_gt. unfold sa_size in *. cbn [storage].
      fold entries in Hcap |- *.
      pose proof (remove_nth_length (Z.to_nat (index_of right entries 0)) entries
                    ltac:(lia)). lia. }
  cbn [bind]. eexists. split; [reflexivity |].
  cbn [st_mem st_heap set_free_list free_list storage start_address end_address
       max_address max_size].
  destruct (footer_unchanged abi_wf _ _ _ _
              (c + (size + right_size) - sizeof_footer) H01) as (Fm & Fh);
    [unfold right in *; lia | unfold right in *; lia | lia |].
  assert (G1m : hdr_magic m1 c = HEAP_MAGIC).
  { unfold m1, m0.
    rewrite (hdr_magic_set_size abi_wf), (hdr_magic_set_allocated abi_wf).
    assumption. }
  assert (G1z : hdr_size m1 c = size + right_size).
  { unfold m1. rewrite hdr_size_set_size. apply wrap_small.
    unfold right in *; lia. }
  split; [exact H01 |]. split; [exact G1m |]. split.
  { unfold m1, m0.
    rewrite (hdr_allocated_set_size abi_wf), hdr_allocated_set_allocated.
    reflexivity. }
  split; [exact G1z |]. split; [exact Fm |]. split; [exact Fh |].
  split.
  { replace (c + (size + right_size) - 4) with (right + right_size - 4)
      by (unfold right; lia).
    reflexivity. }
  apply (chain_app m1 c).
  - apply (chain_unchanged abi_wf c (c + sizeof_header) m); (assumption || lia).
  - apply chain_block; [assumption | lia |]. rewrite G1z.
    replace (c + (size + right_size)) with (right + right_size)
      by (unfold right; lia).
    apply (chain_unchanged abi_wf c (c + sizeof_header) m);
      try (assumption || (unfold right in *; lia)).
Qed.

End RightMerge.

Lemma kfree_heap_right_merge_witness :
  exists st',
    @kfree_heap ia32 0x18100C one_block = Ret st' /\
    @hdr_allocated ia32 (st_mem st') 0x181000 = 0 /\
    @chain ia32 (st_mem st') (end_address (st_heap one_block))
      (start_address (st_heap one_block)).
Proof.
  destruct (@kfree_heap_right_merge ia32 ia32_ok 0x181000 one_block)
    as (st' & Hrun & _ & _ & Ha & _ & _ & _ & _ & Hc).
  - vm_compute. discriminate.
  - vm_compute. discriminate.
  - apply chain_done.
  - vm_compute. reflexivity.
  - vm_compute. discriminate.
  - vm_compute. reflexivity.
  - vm_compute. reflexivity.
  - vm_compute. reflexivity.
  - vm_compute. discriminate.
  - vm_compute. apply chain_done.
  - vm_compute. left. reflexivity.
  - vm_compute. discriminate.
  - left. vm_compute. discriminate.
  - exists st'. split; [exact Hrun |]. split; [exact Ha | exact Hc].
Defined.
